(** * famtree: the family-tree graph of [famtree/core.py]

    A shallow embedding of the [FamilyTree] model and of its operations,
    followed by the properties of the operations.

    Modelling conventions.
    - A [UUID] is a 128-bit identifier; only equality of identifiers is
      ever used, so it is a binary natural number.  [uuid4()] is an
      external source of identifiers: the operations that call it take the
      identifier it returns as their last argument.
    - A Python [dict] keeps insertion order, and the code depends on it
      ([sort], [next(iter(...))], the first match of a scan).  It is an
      association list whose keys are pairwise distinct ([dict_wf]).
    - A Python [set] of edges is a [gset]: the code never depends on the
      iteration order of a set.
    - A [Person] or [Marriage] object stored in a tree is identified by
      the key it is stored under; an operation returning such an object
      returns the key together with the contents.  In-place mutation of the
      object is replacement of the value stored under that key.
    - Exceptions are values of [exn]; an operation that can raise returns a
      [result]. *)

From Stdlib Require Import ZArith.
From stdpp Require Import base option list sorting gmap sets strings.

Set Warnings "-clear-no-such-hyp".

Open Scope Z_scope.
Open Scope nat_scope.

(** ** Insertion-ordered dictionaries *)

Module Dict.
Section dict.
Context {K V : Type} `{EqDecision K}.

Implicit Types (d : list (K * V)) (k : K) (v : V).

(** The keys of a dictionary are pairwise distinct. *)
Definition dict_wf d : Prop := NoDup d.*1.

(** [d.get(k)] *)
Fixpoint dict_get d k : option V :=
  match d with
  | [] => None
  | (k', v) :: d' => if decide (k' = k) then Some v else dict_get d' k
  end.

(** [k in d] *)
Definition dict_in k d : bool := bool_decide (k ∈ d.*1).

(** [d[k] = v]: an existing key keeps its position, a new key goes last. *)
Fixpoint dict_set d k v : list (K * V) :=
  match d with
  | [] => [(k, v)]
  | (k', v') :: d' =>
      if decide (k' = k) then (k', v) :: d' else (k', v') :: dict_set d' k v
  end.

(** [del d[k]] *)
Definition dict_del d k : list (K * V) := filter (λ kv, kv.1 ≠ k) d.

(** [for k, v in other: d[k] = v], which is also [{**d, **other}]. *)
Definition dict_update d (other : list (K * V)) : list (K * V) :=
  foldl (λ acc kv, dict_set acc kv.1 kv.2) d other.

(** [dict(items)] *)
Definition dict_of_list (items : list (K * V)) : list (K * V) :=
  dict_update [] items.
End dict.
End Dict.
Import Dict.

(** ** The entity model *)

Abbreviation UUID := N (only parsing).

Inductive Gender := MALE | FEMALE | OTHER.

Record Person := mkPerson {
  name : string;
  gender : Gender;
  birth_year : Z;
  death_year : option Z;
}.

Record Marriage := mkMarriage {
  children : list UUID;
}.

(** [type _Node = Person | Marriage] *)
Inductive Node := NPerson (p : Person) | NMarriage (m : Marriage).

Record Edge := mkEdge {
  source : UUID;
  target : UUID;
}.

#[global] Instance Gender_eq_dec : EqDecision Gender.
Proof. solve_decision. Defined.
#[global] Instance Person_eq_dec : EqDecision Person.
Proof. solve_decision. Defined.
#[global] Instance Marriage_eq_dec : EqDecision Marriage.
Proof. solve_decision. Defined.
#[global] Instance Edge_eq_dec : EqDecision Edge.
Proof. solve_decision. Defined.
#[global] Instance Edge_countable : Countable Edge.
Proof.
  refine (inj_countable' (λ e, (source e, target e))
                         (λ st, mkEdge st.1 st.2) _).
  by intros [].
Defined.

Record FamilyTree := mkFamilyTree {
  people : list (UUID * Person);
  marriages : list (UUID * Marriage);
  edges : gset Edge;
}.

(** [FamilyTree()] *)
Definition empty_tree : FamilyTree := mkFamilyTree [] [] ∅.

(** The representation invariant of the two dictionaries. *)
Definition tree_wf (t : FamilyTree) : Prop :=
  dict_wf (people t) ∧ dict_wf (marriages t).

(** ** Exceptions *)

Inductive exn :=
| KeyError (k : UUID)
| ValueError (msg : string).

Inductive result (A : Type) :=
| Ok (a : A)
| Raise (e : exn).
Arguments Ok {A} a.
Arguments Raise {A} e.

(** ** The graph store *)

(** [nodes]: [{**self.people, **self.marriages}] *)
Definition nodes (t : FamilyTree) : list (UUID * Node) :=
  dict_update (prod_map id NPerson <$> people t)
              (prod_map id NMarriage <$> marriages t).

(** [adjacency_list[a]] of a [defaultdict(set)]: a missing key reads as the
    empty set. *)
Definition adj_get (adj : gmap UUID (gset UUID)) (a : UUID) : gset UUID :=
  default ∅ (adj !! a).

(** [adjacency_list[a].add(b)] *)
Definition adj_add (a b : UUID) (adj : gmap UUID (gset UUID)) :
    gmap UUID (gset UUID) :=
  <[a := adj_get adj a ∪ {[b]}]> adj.

(** The body of [for edge in self.edges]. *)
Definition add_edge_links (e : Edge) (adj : gmap UUID (gset UUID)) :
    gmap UUID (gset UUID) :=
  adj_add (target e) (source e) (adj_add (source e) (target e) adj).

(** The body of [for child in node.children]. *)
Definition add_child_links (node_id : UUID) (adj : gmap UUID (gset UUID))
    (child : UUID) : gmap UUID (gset UUID) :=
  adj_add child node_id (adj_add node_id child adj).

(** The body of [for node_id, node in self.nodes.items()]. *)
Definition add_node_links (adj : gmap UUID (gset UUID))
    (item : UUID * Node) : gmap UUID (gset UUID) :=
  match item.2 with
  | NMarriage m => foldl (add_child_links item.1) adj (children m)
  | NPerson _ => adj
  end.

Definition adjacency_list (t : FamilyTree) : gmap UUID (gset UUID) :=
  foldl add_node_links (set_fold add_edge_links ∅ (edges t)) (nodes t).

(** The nested function [dfs] of [connected].  The recursion is bounded by
    [fuel]; [None] is "fuel exhausted".  The set [visited] is threaded
    through the calls. *)
Fixpoint dfs (fuel : nat) (adj : gmap UUID (gset UUID)) (node_id : UUID)
    (visited : gset UUID) : option (gset UUID) :=
  match fuel with
  | 0 => None
  | S fuel' =>
      foldl (λ acc neighbor,
               visited ← acc;
               if decide (neighbor ∈ visited) then Some visited
               else dfs fuel' adj neighbor visited)
            (Some (visited ∪ {[node_id]}))
            (elements (adj_get adj node_id))
  end.

(** Every identifier that occurs in an adjacency list. *)
Definition adj_ids (adj : gmap UUID (gset UUID)) : gset UUID :=
  dom adj ∪ ⋃ (map_to_list adj).*2.

(** [connected], with the recursion depth of [dfs] bounded by [fuel]. *)
Definition connected_with (fuel : nat) (t : FamilyTree) : option bool :=
  match nodes t with
  | [] => Some true
  | (start_node_id, _) :: _ =>
      visited ← dfs fuel (adjacency_list t) start_node_id ∅;
      Some (bool_decide (size visited = length (nodes t)))
  end.

(** [connected]: the depth of [dfs] never exceeds the number of identifiers
    of the adjacency list plus one, see [connected_with_enough]. The
    recursion limit of the interpreter is not modelled. *)
Definition connected (t : FamilyTree) : option bool :=
  connected_with (1 + size (adj_ids (adjacency_list t))) t.

(** ** The ordering engine *)

(** The key of [sort]: the tuple
    [(gender != MALE, gender != FEMALE, birth_year, name)]. *)
Definition sort_key (item : UUID * Person) : bool * bool * Z * string :=
  (bool_decide (gender item.2 ≠ MALE),
   bool_decide (gender item.2 ≠ FEMALE),
   birth_year item.2,
   name item.2).

(** [a < b] on such tuples: the first component that differs decides;
    [False < True] on booleans, code-point order on strings. *)
Definition key_lt (a b : bool * bool * Z * string) : bool :=
  let '(a1, a2, a3, a4) := a in
  let '(b1, b2, b3, b4) := b in
  if negb (Bool.eqb a1 b1) then negb a1 && b1
  else if negb (Bool.eqb a2 b2) then negb a2 && b2
  else if negb (a3 =? b3)%Z then (a3 <? b3)%Z
  else String.ltb a4 b4.

(** [sorted(items, key=key)]: the builtin is a stable sort that compares
    keys with [<] only.  It is the stable insertion sort: an item goes in
    front of the first item whose key is not smaller than its own. *)
Section sorted.
Context {A B : Type} (lt : B → B → bool) (key : A → B).

Fixpoint insert_sorted (x : A) (l : list A) : list A :=
  match l with
  | [] => [x]
  | y :: l' =>
      if lt (key y) (key x) then y :: insert_sorted x l' else x :: y :: l'
  end.

Definition sorted (l : list A) : list A := foldr insert_sorted [] l.
End sorted.

Definition sort (t : FamilyTree) : FamilyTree :=
  let sorted_people := sorted key_lt sort_key (people t) in
  mkFamilyTree (dict_of_list sorted_people) (marriages t) (edges t).

(** ** The mutation engine *)

(** The test of the loop of [create_person]. *)
Definition same_info (name' : string) (gender' : Gender) (birth_year' : Z)
    (death_year' : option Z) (person : Person) : bool :=
  bool_decide (name person = name') && bool_decide (gender person = gender')
  && bool_decide (birth_year person = birth_year')
  && bool_decide (death_year person = death_year').

Definition create_person (t : FamilyTree) (name' : string) (gender' : Gender)
    (birth_year' : Z) (death_year' : option Z) (uuid : UUID) :
    (UUID * Person) * FamilyTree :=
  match List.find (λ kv, same_info name' gender' birth_year' death_year' kv.2)
                  (people t) with
  | Some kv => (kv, t)
  | None =>
      let person := mkPerson name' gender' birth_year' death_year' in
      ((uuid, person),
       mkFamilyTree (dict_set (people t) uuid person) (marriages t) (edges t))
  end.

(** [x or y] where [x : int | None]: [None] and [0] are falsy. *)
Definition int_truthy (x : option Z) : option Z :=
  match x with
  | Some z => if decide (z = 0%Z) then None else Some z
  | None => None
  end.

(** The three assignments of [update_person]. *)
Definition updated (gender' : option Gender) (birth_year' death_year' : option Z)
    (person : Person) : Person :=
  {| name := name person;
     gender := default (gender person) gender';
     birth_year := default (birth_year person) (int_truthy birth_year');
     death_year :=
       match int_truthy death_year' with
       | Some z => Some z
       | None => death_year person
       end |}.

Definition update_person (t : FamilyTree) (name' : string)
    (gender' : option Gender) (birth_year' death_year' : option Z)
    (person_id : option UUID) : result ((UUID * Person) * FamilyTree) :=
  match person_id with
  | Some pid =>
      match dict_get (people t) pid with
      | None => Raise (KeyError pid)
      | Some person =>
          let person := updated gender' birth_year' death_year' person in
          Ok ((pid, person),
              mkFamilyTree (dict_set (people t) pid person)
                           (marriages t) (edges t))
      end
  | None =>
      let matches := filter (λ kv, name kv.2 = name') (people t) in
      match matches with
      | [] => Raise (ValueError "Person not found")
      | (pid, person) :: others =>
          if decide (1 < length matches) then
            Raise (ValueError
                     "Multiple people found, please provide the person ID")
          else
            let person := updated gender' birth_year' death_year' person in
            Ok ((pid, person),
                mkFamilyTree (dict_set (people t) pid person)
                             (marriages t) (edges t))
      end
  end.

(** [children or []] *)
Definition children_or_empty (children' : option (list UUID)) : list UUID :=
  default [] children'.

Definition create_marriage (t : FamilyTree) (spouse1_id spouse2_id : UUID)
    (children' : option (list UUID)) (uuid : UUID) :
    (UUID * Marriage) * FamilyTree :=
  let marriage := mkMarriage (children_or_empty children') in
  let marriage_id := uuid in
  ((marriage_id, marriage),
   mkFamilyTree (people t)
                (dict_set (marriages t) marriage_id marriage)
                (edges t ∪ {[mkEdge spouse1_id marriage_id]}
                         ∪ {[mkEdge spouse2_id marriage_id]})).

(** [[edge.target for edge in self.edges
      if edge.source == spouse_id and edge.target in self.marriages]] *)
Definition spouse_marriages (t : FamilyTree) (spouse_id : UUID) : list UUID :=
  target <$> filter (λ edge, source edge = spouse_id
                             ∧ dict_in (target edge) (marriages t))
                    (elements (edges t)).

(** [update_marriage].  The generator handed to [next] yields the loop
    variable [marriage] for the first identifier of [spouse1_marriages]
    that is in [spouse2_marriages]; the body of the loop returns in its
    first round, so only the first entry of [self.marriages] is ever the
    loop variable. *)
Definition update_marriage (t : FamilyTree) (spouse1_id spouse2_id : UUID)
    (children' : option (list UUID)) :
    option (UUID * Marriage) * FamilyTree :=
  match marriages t with
  | [] => (None, t)
  | (mid, marriage) :: _ =>
      let spouse1_marriages := spouse_marriages t spouse1_id in
      let spouse2_marriages := spouse_marriages t spouse2_id in
      let matched_marriage :=
        (λ _ : UUID, (mid, marriage)) <$>
          List.find (λ marriage_id, bool_decide (marriage_id ∈ spouse2_marriages))
                    spouse1_marriages in
      match matched_marriage with
      | Some (mid', _) =>
          let marriage' := mkMarriage (children_or_empty children') in
          (Some (mid', marriage'),
           mkFamilyTree (people t) (dict_set (marriages t) mid' marriage')
                        (edges t))
      | None => (None, t)
      end
  end.

(** [marriage.children = [child for child in marriage.children
                          if child != node_id]] on one entry. *)
Definition without_child (node_id : UUID) (kv : UUID * Marriage) :
    UUID * Marriage :=
  (kv.1, mkMarriage (filter (λ child, child ≠ node_id) (children kv.2))).

(** The cascade of [delete_node]: the edges and the children lists. *)
Definition prune (node_id : UUID) (t : FamilyTree) : FamilyTree :=
  mkFamilyTree
    (people t)
    (without_child node_id <$> marriages t)
    (filter (λ edge, node_id ≠ source edge ∧ node_id ≠ target edge) (edges t)).

Definition delete_node (t : FamilyTree) (node_id : UUID) : result FamilyTree :=
  if dict_in node_id (people t) then
    Ok (prune node_id
          (mkFamilyTree (dict_del (people t) node_id) (marriages t) (edges t)))
  else if dict_in node_id (marriages t) then
    Ok (prune node_id
          (mkFamilyTree (people t) (dict_del (marriages t) node_id) (edges t)))
  else Raise (ValueError "Node not found").

(** ** The merge engine *)

Definition merge (t other : FamilyTree) : FamilyTree :=
  mkFamilyTree (dict_update (people t) (people other))
               (dict_update (marriages t) (marriages other))
               (edges t ∪ edges other).

(** ** Vocabulary of the statements *)

(** Marriage [m] has stored spouse-to-marriage edges from both spouses. *)
Definition common_marriage (t : FamilyTree) (spouse1_id spouse2_id m : UUID) :
    Prop :=
  m ∈ (marriages t).*1
  ∧ mkEdge spouse1_id m ∈ edges t ∧ mkEdge spouse2_id m ∈ edges t.

(** An entry of [people] carrying the given name. *)
Definition has_name (t : FamilyTree) (name' : string) (kv : UUID * Person) : Prop :=
  kv ∈ people t ∧ name kv.2 = name'.

(** A tree with two couples, each with a marriage of its own, and a child. *)
Definition two_couples : FamilyTree :=
  mkFamilyTree
    [(1%N, mkPerson "A" MALE 1950 None); (2%N, mkPerson "B" FEMALE 1952 None);
     (5%N, mkPerson "D" MALE 1960 None); (6%N, mkPerson "E" FEMALE 1961 None);
     (7%N, mkPerson "C" OTHER 1990 None)]
    [(3%N, mkMarriage []); (4%N, mkMarriage [])]
    {[mkEdge 1%N 3%N; mkEdge 2%N 3%N; mkEdge 5%N 4%N; mkEdge 6%N 4%N]}.

(** A tree in which one identifier is a key of [people] and of [marriages];
    [merge] and the import of a snapshot keep identifiers as they come. *)
Definition shared_key : FamilyTree :=
  mkFamilyTree [(1%N, mkPerson "A" MALE 1950 None)] [(1%N, mkMarriage [])] ∅.

(** The composite key of the display order: gender rank
    (MALE < FEMALE < OTHER), then birth year, then name. *)
Definition gender_rank (g : Gender) : nat :=
  match g with MALE => 0 | FEMALE => 1 | OTHER => 2 end.

Definition composite_key (p : Person) : nat * Z * string :=
  (gender_rank (gender p), birth_year p, name p).

(** Strict lexicographic order on composite keys. *)
Definition composite_lt (a b : nat * Z * string) : bool :=
  let '(r1, y1, n1) := a in
  let '(r2, y2, n2) := b in
  (r1 <? r2)
  || ((r1 =? r2) && ((y1 <? y2)%Z || ((y1 =? y2)%Z && String.ltb n1 n2))).

(** The earlier entry does not strictly exceed the later one. *)
Definition in_order (a b : UUID * Person) : Prop :=
  composite_lt (composite_key b.2) (composite_key a.2) = false.

(** [y] is a neighbour of [x] in the adjacency list of [connected]. *)
Definition linked (t : FamilyTree) (x y : UUID) : Prop :=
  y ∈ adj_get (adjacency_list t) x.

(** [y] is reached from [x] along the adjacency list. *)
Definition reachable (t : FamilyTree) (x y : UUID) : Prop :=
  rtc (linked t) x y.

(** [ident] is referenced by an edge or by a children list, and is not the
    identifier of a stored node. *)
Definition dangling (t : FamilyTree) (ident : UUID) : Prop :=
  (ident ∉ (nodes t).*1)
  ∧ ((∃ e, e ∈ edges t ∧ (source e = ident ∨ target e = ident))
     ∨ (∃ k m, (k, m) ∈ marriages t ∧ ident ∈ children m)).

(** Two people, and an edge from the first to an identifier that is no
    stored node. *)
Definition stray_edge : FamilyTree :=
  mkFamilyTree
    [(1%N, mkPerson "A" MALE 1950 None); (2%N, mkPerson "B" FEMALE 1952 None)]
    [] {[mkEdge 1%N 9%N]}.

(** A couple whose marriage lists a child that is no stored node. *)
Definition stray_child : FamilyTree :=
  (create_marriage
     (mkFamilyTree
        [(1%N, mkPerson "A" MALE 1950 None);
         (2%N, mkPerson "B" FEMALE 1952 None)] [] ∅)
     1%N 2%N (Some [9%N]) 3%N).2.

(** Two people created one after the other, then a marriage of the first
    with an identifier that is no stored node: [create_marriage] does not
    check its spouses. *)
Definition unstored_spouse : FamilyTree :=
  (create_marriage
     (create_person
        (create_person empty_tree "A" MALE 1950 None 1%N).2
        "B" FEMALE 1952 None 2%N).2
     1%N 9%N None 3%N).2.

(** ** The rest of the graph store and its callers *)

(** [__getitem__]: [self.nodes[node_id]], a [KeyError] for a missing key. *)
Definition getitem (t : FamilyTree) (node_id : UUID) : result Node :=
  match dict_get (nodes t) node_id with
  | Some node => Ok node
  | None => Raise (KeyError node_id)
  end.

(** The import loop of the application ([app.py]): every uploaded tree is
    merged into the session tree, which is sorted after each merge. *)
Definition import_trees (t : FamilyTree) (trees : list FamilyTree) :
    FamilyTree :=
  foldl (λ acc tree, sort (merge acc tree)) t trees.

(** Every identifier referenced by an edge or by a children list is the
    identifier of a stored node. *)
Definition no_dangling (t : FamilyTree) : Prop := ∀ ident, ¬ dangling t ident.

(** * Properties *)

(** ** Dictionaries *)

Section dict_facts.
Context {K V : Type} `{EqDecision K}.
Implicit Types (d o : list (K * V)) (k : K) (v : V).

Lemma dict_get_None d k : dict_get d k = None ↔ k ∉ d.*1.
Proof.
  induction d as [|[k' v'] d IH]; simpl.
  - split; [intros _; apply not_elem_of_nil | done].
  - rewrite not_elem_of_cons. case_decide; naive_solver.
Qed.

Lemma dict_get_Some_elem d k v : dict_get d k = Some v → (k, v) ∈ d.
Proof.
  induction d as [|[k' v'] d IH]; simpl; [done|].
  case_decide; [intros [= ->]; subst; left | right; auto].
Qed.

Lemma dict_get_is_Some d k : is_Some (dict_get d k) ↔ k ∈ d.*1.
Proof.
  rewrite <-not_eq_None_Some, dict_get_None.
  destruct (decide (k ∈ d.*1)); naive_solver.
Qed.

Lemma dict_in_spec k d : dict_in k d = true ↔ k ∈ d.*1.
Proof. unfold dict_in. by rewrite bool_decide_eq_true. Qed.

Lemma dict_in_false k d : dict_in k d = false ↔ k ∉ d.*1.
Proof. unfold dict_in. by rewrite bool_decide_eq_false. Qed.

Lemma elem_dict_get d k v : dict_wf d → (k, v) ∈ d → dict_get d k = Some v.
Proof.
  unfold dict_wf. induction d as [|[k' v'] d IH]; simpl.
  - by intros _ ?%elem_of_nil.
  - rewrite NoDup_cons. intros [Hk Hd] [[= -> ->]|Hin]%elem_of_cons.
    + by rewrite decide_True.
    + rewrite decide_False; [auto|].
      intros ->. apply Hk, list_elem_of_fmap. by exists (k, v).
Qed.

Lemma dict_set_keys_in d k v : k ∈ d.*1 → (dict_set d k v).*1 = d.*1.
Proof.
  induction d as [|[k' v'] d IH]; simpl.
  - by intros ?%elem_of_nil.
  - case_decide; [done|]. simpl.
    intros [?|?]%elem_of_cons; [congruence|]. f_equal. auto.
Qed.

Lemma dict_set_fresh d k v : k ∉ d.*1 → dict_set d k v = d ++ [(k, v)].
Proof.
  induction d as [|[k' v'] d IH]; simpl; [done|].
  rewrite not_elem_of_cons. intros [? ?].
  rewrite decide_False by done. f_equal. auto.
Qed.

Lemma dict_set_keys d k v :
  (dict_set d k v).*1 = if decide (k ∈ d.*1) then d.*1 else d.*1 ++ [k].
Proof.
  case_decide.
  - by apply dict_set_keys_in.
  - rewrite dict_set_fresh by done. by rewrite fmap_app.
Qed.

Lemma dict_set_wf d k v : dict_wf d → dict_wf (dict_set d k v).
Proof.
  unfold dict_wf. rewrite dict_set_keys. case_decide; [done|].
  intros Hd. apply NoDup_app. split_and!; [done| |apply NoDup_singleton].
  intros x Hx ->%list_elem_of_singleton. done.
Qed.

Lemma dict_get_set d k v k' :
  dict_get (dict_set d k v) k' =
    if decide (k = k') then Some v else dict_get d k'.
Proof.
  induction d as [|[k0 v0] d IH]; simpl.
  - repeat case_decide; congruence.
  - repeat (case_decide; simpl); congruence.
Qed.

Lemma dict_set_length d k v :
  length (dict_set d k v) =
    if decide (k ∈ d.*1) then length d else S (length d).
Proof.
  rewrite <-(length_fmap fst (dict_set d k v)), dict_set_keys.
  case_decide; rewrite ?length_app, !length_fmap; simpl; lia.
Qed.

Lemma dict_update_wf d o : dict_wf d → dict_wf (dict_update d o).
Proof.
  unfold dict_update. revert d.
  induction o as [|[k v] o IH]; simpl; auto using dict_set_wf.
Qed.

Lemma dict_update_keys d o k :
  k ∈ (dict_update d o).*1 ↔ k ∈ d.*1 ∨ k ∈ o.*1.
Proof.
  unfold dict_update. revert d.
  induction o as [|[k0 v0] o IH]; intros d; simpl.
  - rewrite elem_of_nil. naive_solver.
  - rewrite IH, dict_set_keys, elem_of_cons.
    case_decide; rewrite ?elem_of_app, ?list_elem_of_singleton;
      naive_solver.
Qed.

(** After [d.update(o)], a key of [o] reads as in [o] and every other
    key as in [d]. *)
Lemma dict_get_update d o k :
  dict_wf o →
  dict_get (dict_update d o) k =
    match dict_get o k with Some v => Some v | None => dict_get d k end.
Proof.
  unfold dict_update, dict_wf. revert d.
  induction o as [|[k0 v0] o IH]; intros d; simpl; [done|].
  rewrite NoDup_cons. intros [Hk0 Ho].
  rewrite IH by done. rewrite dict_get_set.
  case_decide as Hk; [subst k0|done].
  by apply dict_get_None in Hk0 as ->.
Qed.

Lemma dict_update_append d o :
  NoDup (d ++ o).*1 → dict_update d o = d ++ o.
Proof.
  unfold dict_update. revert d.
  induction o as [|[k v] o IH]; intros d; simpl.
  - by rewrite app_nil_r.
  - intros Hnd. rewrite dict_set_fresh.
    + rewrite IH; rewrite <-?(assoc_L (++)); done.
    + rewrite fmap_app in Hnd. apply NoDup_app in Hnd as (_ & Hd & _).
      intros Hk. apply (Hd k Hk). simpl. left.
Qed.

(** [dict(items)] of items with distinct keys keeps them in order. *)
Lemma dict_of_list_id o : dict_wf o → dict_of_list o = o.
Proof. intros. unfold dict_of_list. by rewrite dict_update_append. Qed.

Lemma dict_del_keys d k k' : k' ∈ (dict_del d k).*1 ↔ k' ∈ d.*1 ∧ k' ≠ k.
Proof.
  unfold dict_del. rewrite !list_elem_of_fmap. split.
  - intros ([k0 v0] & -> & [? ?]%list_elem_of_filter).
    split; [by exists (k0, v0) | done].
  - intros [([k0 v0] & -> & ?) ?]. exists (k0, v0).
    by rewrite list_elem_of_filter.
Qed.

Lemma dict_del_get d k k' :
  dict_get (dict_del d k) k' = if decide (k' = k) then None else dict_get d k'.
Proof.
  unfold dict_del. induction d as [|[k0 v0] d IH]; simpl.
  - by case_decide.
  - rewrite filter_cons. simpl.
    repeat (case_decide; simpl); congruence.
Qed.
End dict_facts.

(** ** [update_marriage] *)

Lemma elem_of_spouse_marriages t spouse_id m :
  m ∈ spouse_marriages t spouse_id ↔
    mkEdge spouse_id m ∈ edges t ∧ m ∈ (marriages t).*1.
Proof.
  unfold spouse_marriages. rewrite list_elem_of_fmap. split.
  - intros ([s m'] & -> & [[Hs Hm] He]%list_elem_of_filter). simpl in *.
    subst s. apply Is_true_true, dict_in_spec in Hm.
    by apply elem_of_elements in He.
  - intros [He Hm]. exists (mkEdge spouse_id m). split; [done|].
    apply list_elem_of_filter. simpl. split; [|by apply elem_of_elements].
    split; [done|]. by apply Is_true_true, dict_in_spec.
Qed.

(** Whether [next] finds an identifier is whether the two spouses have a
    common marriage. *)
Lemma find_common_Some t spouse1_id spouse2_id :
  is_Some (List.find
             (λ marriage_id,
                bool_decide (marriage_id ∈ spouse_marriages t spouse2_id))
             (spouse_marriages t spouse1_id))
  ↔ ∃ m, common_marriage t spouse1_id spouse2_id m.
Proof.
  unfold common_marriage. split.
  - intros [m Hm]. apply find_some in Hm as [H1 H2].
    apply list_elem_of_In, elem_of_spouse_marriages in H1.
    apply bool_decide_eq_true, elem_of_spouse_marriages in H2.
    exists m. tauto.
  - intros (m & Hm & H1 & H2).
    destruct (List.find _ _) eqn:Hfind; [by eexists|].
    eapply find_none in Hfind.
    + apply bool_decide_eq_false in Hfind. contradict Hfind.
      apply elem_of_spouse_marriages. eauto.
    + apply list_elem_of_In, elem_of_spouse_marriages. eauto.
Qed.

(** What [update_marriage] does when the spouses have a common marriage:
    it replaces the children of the first entry of [marriages], whichever
    marriage is the common one. *)
Lemma update_marriage_first_entry t spouse1_id spouse2_id children' mid
    marriage rest :
  marriages t = (mid, marriage) :: rest →
  (∃ m, common_marriage t spouse1_id spouse2_id m) →
  update_marriage t spouse1_id spouse2_id children' =
    (Some (mid, mkMarriage (children_or_empty children')),
     mkFamilyTree (people t)
                  ((mid, mkMarriage (children_or_empty children')) :: rest)
                  (edges t)).
Proof.
  intros Hms [m' Hfind]%find_common_Some. unfold update_marriage.
  rewrite Hfind, Hms. simpl. by rewrite decide_True.
Qed.

(** C1 (the code departs from it). In [two_couples] the spouses 5 and 6
    belong to marriage 4 and to no other; [update_marriage 5 6 [7]] leaves
    marriage 4 as it was, and replaces the children of marriage 3, the
    marriage of 1 and 2, which it returns. *)
Theorem update_marriage_replaces_first_entry :
  common_marriage two_couples 5%N 6%N 4%N
  ∧ ¬ common_marriage two_couples 5%N 6%N 3%N
  ∧ update_marriage two_couples 5%N 6%N (Some [7%N]) =
      (Some (3%N, mkMarriage [7%N]),
       mkFamilyTree (people two_couples)
                    [(3%N, mkMarriage [7%N]); (4%N, mkMarriage [])]
                    (edges two_couples)).
Proof.
  split_and!.
  - unfold common_marriage, two_couples; simpl. set_solver.
  - unfold common_marriage, two_couples; simpl. set_solver.
  - apply update_marriage_first_entry with (marriage := mkMarriage []).
    + done.
    + exists 4%N. unfold common_marriage, two_couples; simpl. set_solver.
Qed.

(** C2. When no marriage has spouse-to-marriage edges from both spouses,
    [update_marriage] returns [None] and the tree is unchanged; the
    function has no exceptional outcome. *)
Theorem update_marriage_no_common t spouse1_id spouse2_id children' :
  (∀ m, ¬ common_marriage t spouse1_id spouse2_id m) →
  update_marriage t spouse1_id spouse2_id children' = (None, t).
Proof.
  intros Hno. unfold update_marriage.
  destruct (marriages t) as [|[mid marriage] rest] eqn:Hms; [done|].
  destruct (List.find _ _) as [m|] eqn:Hfind; [|done].
  exfalso. destruct (proj1 (find_common_Some t spouse1_id spouse2_id)) as [m' ?].
  - by exists m.
  - by eapply Hno.
Qed.

Lemma update_marriage_no_common_witness :
  update_marriage two_couples 1%N 6%N (Some [7%N]) = (None, two_couples).
Proof.
  apply update_marriage_no_common.
  intros m (Hm & H1 & H2). unfold two_couples in *; simpl in *. set_solver.
Defined.

(** ** [update_person] *)

Lemma updated_falsy gender' birth_year' death_year' (old : Person) :
  let p := updated gender' birth_year' death_year' old in
  name p = name old
  ∧ (gender' = None → gender p = gender old)
  ∧ (birth_year' = None ∨ birth_year' = Some 0%Z →
     birth_year p = birth_year old)
  ∧ (death_year' = None ∨ death_year' = Some 0%Z →
     death_year p = death_year old)
  ∧ (birth_year p = 0%Z → birth_year old = 0%Z)
  ∧ (death_year p = None → death_year old = None).
Proof.
  unfold updated, int_truthy; simpl. split_and!.
  - done.
  - by intros ->.
  - by intros [-> | ->].
  - by intros [-> | ->].
  - destruct birth_year' as [z|]; [|done]. by case_decide.
  - destruct death_year' as [z|]; [|done]. by case_decide.
Qed.

(** The policy holds on both paths of [update_person]: whenever it
    succeeds, the person it returns is a stored person after the three
    assignments. *)
Lemma update_person_success_falsy t name' gender' birth_year' death_year'
    person_id k p t' :
  update_person t name' gender' birth_year' death_year' person_id
    = Ok ((k, p), t') →
  ∃ old, (k, old) ∈ people t
    ∧ p = updated gender' birth_year' death_year' old
    ∧ people t' = dict_set (people t) k p
    ∧ (birth_year p = 0%Z → birth_year old = 0%Z)
    ∧ (death_year p = None → death_year old = None).
Proof.
  unfold update_person. destruct person_id as [pid|].
  - destruct (dict_get (people t) pid) as [old|] eqn:Hold; [|done].
    intros [= <- <- <-]. exists old. simpl.
    destruct (updated_falsy gender' birth_year' death_year' old)
      as (_ & _ & _ & _ & ? & ?).
    split_and!; [by apply dict_get_Some_elem|done..].
  - destruct (filter _ (people t)) as [|[pid old] others] eqn:Hf; [done|].
    case_decide; [done|]. intros [= <- <- <-]. exists old. simpl.
    destruct (updated_falsy gender' birth_year' death_year' old)
      as (_ & _ & _ & _ & ? & ?).
    split_and!; [|done..].
    assert (Hin : (pid, old) ∈ filter (λ kv, name kv.2 = name') (people t))
      by (rewrite Hf; left).
    by apply list_elem_of_filter in Hin as [_ ?].
Qed.

(** C8. For a person stored under [person_id], [update_person] succeeds,
    returns that person and stores it back under the same key; a field
    whose argument is falsy ([None] for the gender, [None] or [0] for the
    birth year, [None] for the death year) keeps its prior value.  On
    either path, by identifier or by name, a birth year that is [0] after
    a successful call was [0] before, and a death year that is absent
    afterwards was absent before. *)
Theorem update_person_falsy_unset t name' gender' birth_year' death_year' :
  (∀ person_id old,
     dict_get (people t) person_id = Some old →
     ∃ p t',
       update_person t name' gender' birth_year' death_year' (Some person_id)
         = Ok ((person_id, p), t')
       ∧ dict_get (people t') person_id = Some p
       ∧ (gender' = None → gender p = gender old)
       ∧ (birth_year' = None ∨ birth_year' = Some 0%Z →
          birth_year p = birth_year old)
       ∧ (death_year' = None → death_year p = death_year old))
  ∧ (∀ person_id k p t',
       update_person t name' gender' birth_year' death_year' person_id
         = Ok ((k, p), t') →
       ∃ old, (k, old) ∈ people t
         ∧ (birth_year p = 0%Z → birth_year old = 0%Z)
         ∧ (death_year p = None → death_year old = None)).
Proof.
  split.
  - intros person_id old Hold. unfold update_person. rewrite Hold.
    do 2 eexists. split; [reflexivity|]. simpl.
    split; [by rewrite dict_get_set, decide_True|].
    destruct (updated_falsy gender' birth_year' death_year' old)
      as (_ & ? & ? & ? & _).
    split_and!; auto.
  - intros person_id k p t' Hup.
    apply update_person_success_falsy in Hup as (old & ? & _ & _ & ? & ?).
    by exists old.
Qed.

Lemma update_person_falsy_unset_witness :
  ∃ p t',
    update_person two_couples "ignored" None (Some 0%Z) None (Some 1%N)
      = Ok ((1%N, p), t')
    ∧ birth_year p = 1950%Z ∧ gender p = MALE ∧ death_year p = None.
Proof.
  destruct (update_person_falsy_unset two_couples "ignored" None (Some 0%Z)
              None) as [Hid _].
  destruct (Hid 1%N (mkPerson "A" MALE 1950 None) eq_refl)
    as (p & t' & Hup & _ & Hg & Hb & Hd).
  exists p, t'. split; [exact Hup|].
  split_and!; [apply Hb; by right | by apply Hg | by apply Hd].
Defined.

(** Two entries of a list with distinct keys. *)
Lemma filter_two_distinct {A} (P : N * A → Prop) `{∀ x, Decision (P x)}
    (l : list (N * A)) :
  NoDup l.*1 →
  1 < length (filter P l) ↔
    ∃ kv1 kv2, kv1.1 ≠ kv2.1 ∧ (kv1 ∈ l ∧ P kv1) ∧ (kv2 ∈ l ∧ P kv2).
Proof.
  intros Hnd. split.
  - assert (Hsub : NoDup (filter P l).*1).
    { eapply sublist_NoDup; [exact Hnd|]. apply fmap_sublist, sublist_filter. }
    assert (Hin : ∀ kv, kv ∈ filter P l → kv ∈ l ∧ P kv).
    { intros kv ?%list_elem_of_filter. tauto. }
    destruct (filter P l) as [|kv1 [|kv2 rest]]; simpl; [lia..|]. intros _.
    exists kv1, kv2. split; [|split].
    + apply NoDup_cons in Hsub as [Hne _]. simpl in Hne.
      rewrite not_elem_of_cons in Hne. tauto.
    + apply (Hin kv1). set_solver.
    + apply (Hin kv2). set_solver.
  - intros (kv1 & kv2 & Hne & [Hin1 HP1] & [Hin2 HP2]).
    assert (H1 : kv1 ∈ filter P l) by by apply list_elem_of_filter.
    assert (H2 : kv2 ∈ filter P l) by by apply list_elem_of_filter.
    destruct (filter P l) as [|x [|y rest]]; simpl; [| |lia].
    + by apply elem_of_nil in H1.
    + apply list_elem_of_singleton in H1, H2. congruence.
Qed.

(** What the three assignments of [update_person] store for arguments
    that are not falsy. *)
Lemma updated_truthy gender' birth_year' death_year' (old : Person) :
  let p := updated gender' birth_year' death_year' old in
  (∀ g, gender' = Some g → gender p = g)
  ∧ (∀ z, birth_year' = Some z → z ≠ 0%Z → birth_year p = z)
  ∧ (∀ z, death_year' = Some z → z ≠ 0%Z → death_year p = Some z).
Proof.
  unfold updated, int_truthy; simpl. split_and!.
  - by intros g ->.
  - intros z -> Hz. by rewrite decide_False.
  - intros z -> Hz. by rewrite decide_False.
Qed.

(** C9. Without a person identifier, [update_person] raises "Person not
    found" exactly when no stored person has the given name, raises
    "Multiple people found" exactly when two entries with different keys
    have it, and otherwise updates and returns the one person who has it:
    the person returned is the one stored under that key afterwards; its
    name is unchanged, each of gender, birth year and death year is the
    argument when the argument is not falsy and the prior value when it
    is; every other person, the order of the keys, the marriages and the
    edges are as before. *)
Theorem update_person_by_name t name' gender' birth_year' death_year' :
  dict_wf (people t) →
  let r := update_person t name' gender' birth_year' death_year' None in
  (r = Raise (ValueError "Person not found") ↔ ¬ ∃ kv, has_name t name' kv)
  ∧ (r = Raise (ValueError
                  "Multiple people found, please provide the person ID")
     ↔ ∃ kv1 kv2, kv1.1 ≠ kv2.1 ∧ has_name t name' kv1 ∧ has_name t name' kv2)
  ∧ (∀ k old,
       has_name t name' (k, old) →
       (∀ kv, has_name t name' kv → kv = (k, old)) →
       ∃ p t',
         r = Ok ((k, p), t')
         ∧ p = updated gender' birth_year' death_year' old
         ∧ t' = mkFamilyTree (dict_set (people t) k p) (marriages t) (edges t)
         ∧ dict_get (people t') k = Some p
         ∧ (∀ k', k' ≠ k → dict_get (people t') k' = dict_get (people t) k')
         ∧ (people t').*1 = (people t).*1
         ∧ marriages t' = marriages t ∧ edges t' = edges t
         ∧ name p = name old
         ∧ (∀ g, gender' = Some g → gender p = g)
         ∧ (∀ z, birth_year' = Some z → z ≠ 0%Z → birth_year p = z)
         ∧ (∀ z, death_year' = Some z → z ≠ 0%Z → death_year p = Some z)
         ∧ (gender' = None → gender p = gender old)
         ∧ (birth_year' = None ∨ birth_year' = Some 0%Z →
            birth_year p = birth_year old)
         ∧ (death_year' = None ∨ death_year' = Some 0%Z →
            death_year p = death_year old)).
Proof.
  intros Hwf r.
  assert (Hstored : ∀ k old,
    (k, old) ∈ people t →
    let p := updated gender' birth_year' death_year' old in
    let t' := mkFamilyTree (dict_set (people t) k p) (marriages t) (edges t) in
    dict_get (people t') k = Some p
    ∧ (∀ k', k' ≠ k → dict_get (people t') k' = dict_get (people t) k')
    ∧ (people t').*1 = (people t).*1
    ∧ marriages t' = marriages t ∧ edges t' = edges t
    ∧ name p = name old
    ∧ (∀ g, gender' = Some g → gender p = g)
    ∧ (∀ z, birth_year' = Some z → z ≠ 0%Z → birth_year p = z)
    ∧ (∀ z, death_year' = Some z → z ≠ 0%Z → death_year p = Some z)
    ∧ (gender' = None → gender p = gender old)
    ∧ (birth_year' = None ∨ birth_year' = Some 0%Z →
       birth_year p = birth_year old)
    ∧ (death_year' = None ∨ death_year' = Some 0%Z →
       death_year p = death_year old)).
  { intros k old Hin p t'.
    destruct (updated_falsy gender' birth_year' death_year' old)
      as (Hn & Hg & Hb & Hd & _).
    destruct (updated_truthy gender' birth_year' death_year' old)
      as (Hg' & Hb' & Hd').
    subst t'. simpl. split_and!; try done.
    - by rewrite dict_get_set, decide_True.
    - intros k' Hne. by rewrite dict_get_set, decide_False.
    - apply dict_set_keys_in. apply list_elem_of_fmap. by exists (k, old). }
  pose proof (filter_two_distinct (λ kv, name kv.2 = name') (people t) Hwf)
    as Htwo.
  assert (Hmem : ∀ kv, kv ∈ filter (λ kv, name kv.2 = name') (people t)
                       ↔ has_name t name' kv).
  { intros kv. rewrite list_elem_of_filter. unfold has_name. tauto. }
  subst r. unfold update_person.
  destruct (filter _ (people t)) as [|[pid old] others] eqn:Hf.
  - split_and!.
    + split; [|done]. intros _ [kv Hkv]. apply Hmem in Hkv.
      by apply elem_of_nil in Hkv.
    + split; [done|]. intros (kv1 & _ & _ & Hkv & _). apply Hmem in Hkv.
      by apply elem_of_nil in Hkv.
    + intros k old Hkv. apply Hmem in Hkv. by apply elem_of_nil in Hkv.
  - assert (Hhead : has_name t name' (pid, old)) by (apply Hmem; left).
    case_decide as Hlen.
    + split_and!.
      * split; [done|]. intros []. by exists (pid, old).
      * split; [intros _; by apply Htwo|done].
      * intros k old' Hk Huniq. exfalso.
        apply Htwo in Hlen as (kv1 & kv2 & Hne & H1 & H2).
        apply Huniq in H1, H2. congruence.
    + split_and!.
      * split; [done|]. intros []. by exists (pid, old).
      * split; [done|]. intros Hex. by apply Htwo in Hex.
      * intros k old' Hk Huniq. apply Huniq in Hhead.
        injection Hhead as -> ->. destruct Hk as [Hin _].
        eexists _, _. split; [reflexivity|]. split; [reflexivity|].
        split; [reflexivity|]. by apply Hstored.
Qed.

Lemma update_person_by_name_witness :
  ∃ t',
    update_person two_couples "B" None (Some 1953%Z) None None
      = Ok ((2%N, mkPerson "B" FEMALE 1953 None), t')
    ∧ dict_get (people t') 2%N = Some (mkPerson "B" FEMALE 1953 None)
    ∧ dict_get (people t') 1%N = Some (mkPerson "A" MALE 1950 None).
Proof.
  assert (Hwf : dict_wf (people two_couples)).
  { unfold dict_wf, two_couples; simpl. apply (bool_decide_unpack _). by vm_compute. }
  destruct (update_person_by_name two_couples "B" None (Some 1953%Z) None Hwf)
    as (_ & _ & Hone).
  destruct (Hone 2%N (mkPerson "B" FEMALE 1952 None))
    as (p & t' & Hr & Hp & _ & Hget & Hothers & _).
  - split; [|done]. unfold two_couples; simpl. set_solver.
  - intros [k p] [Hin Hname]. unfold two_couples in Hin; simpl in *.
    repeat (apply elem_of_cons in Hin as [[= -> ->]|Hin]; [by simplify_eq/=|]).
    by apply elem_of_nil in Hin.
  - exists t'. subst p. split_and!.
    + exact Hr.
    + exact Hget.
    + by rewrite Hothers.
Defined.

(** ** [create_person] *)

Lemma same_info_spec name' gender' birth_year' death_year' person :
  same_info name' gender' birth_year' death_year' person = true ↔
    person = mkPerson name' gender' birth_year' death_year'.
Proof.
  unfold same_info. rewrite !andb_true_iff, !bool_decide_eq_true.
  destruct person; simpl. split; [intros [[[-> ->] ->] ->]|intros [=]]; auto.
Qed.

Lemma find_dict_set {V} (f : N * V → bool) (d : list (N * V)) k v :
  List.find f d = None → f (k, v) = true →
  List.find f (dict_set d k v) = Some (k, v).
Proof.
  intros Hnone Hf. induction d as [|[k0 v0] d IH]; simpl in *.
  - by rewrite Hf.
  - destruct (f (k0, v0)) eqn:Hf0; [done|]. case_decide; simpl.
    + subst k0. by rewrite Hf.
    + rewrite Hf0. auto.
Qed.

(** C4. When a person with the four given fields is stored, [create_person]
    returns a stored entry with these fields and the tree is unchanged.
    A second call with the same arguments returns the entry the first call
    returned and inserts nothing.  When no such person was stored and the
    identifier drawn by the first call is new, the two calls together add
    exactly one entry to [people]. *)
Theorem create_person_idempotent t name' gender' birth_year' death_year'
    uuid1 uuid2 :
  let person := mkPerson name' gender' birth_year' death_year' in
  let '(r1, t1) :=
    create_person t name' gender' birth_year' death_year' uuid1 in
  let '(r2, t2) :=
    create_person t1 name' gender' birth_year' death_year' uuid2 in
  ((∃ k, (k, person) ∈ people t) → r1 ∈ people t ∧ r1.2 = person ∧ t1 = t)
  ∧ r1.2 = person ∧ r1 ∈ people t1
  ∧ r2 = r1 ∧ t2 = t1
  ∧ ((¬ ∃ k, (k, person) ∈ people t) → uuid1 ∉ (people t).*1 →
     people t2 = people t ++ [(uuid1, person)]
     ∧ length (people t2) = S (length (people t))).
Proof.
  intros person. unfold create_person.
  set (f := λ kv : N * Person,
              same_info name' gender' birth_year' death_year' kv.2).
  destruct (List.find f (people t)) as [[k p]|] eqn:Hfind.
  - rewrite Hfind. apply find_some in Hfind as [Hin Hf].
    apply list_elem_of_In in Hin. apply same_info_spec in Hf. simpl in Hf.
    split_and!; try done. intros Hno. exfalso. apply Hno. exists k. by subst p.
  - pose proof (find_dict_set f (people t) uuid1 person Hfind) as Hagain.
    subst person. simpl. rewrite Hagain by by apply same_info_spec.
    split_and!; try done.
    + intros [k Hk]. exfalso. apply list_elem_of_In in Hk.
      eapply find_none in Hk; [|exact Hfind].
      subst f. simpl in Hk. by rewrite (proj2 (same_info_spec _ _ _ _ _)) in Hk.
    + apply dict_get_Some_elem. by rewrite dict_get_set, decide_True.
    + intros _ Hfresh. split; [by rewrite dict_set_fresh|].
      simpl. rewrite dict_set_fresh by done. rewrite length_app. simpl. lia.
Qed.

Lemma create_person_idempotent_witness :
  let '(r1, t1) := create_person two_couples "F" MALE 2000 None 8%N in
  let '(r2, t2) := create_person t1 "F" MALE 2000 None 9%N in
  r2 = r1 ∧ t2 = t1 ∧ length (people t2) = S (length (people two_couples)).
Proof.
  pose proof (create_person_idempotent two_couples "F" MALE 2000 None 8%N 9%N)
    as Hthm.
  simpl in Hthm. destruct Hthm as (_ & _ & _ & Hr & Ht & Hlen).
  simpl. split_and!; [exact Hr | exact Ht |].
  apply Hlen.
  - intros [k Hk]. unfold two_couples in Hk; simpl in Hk. set_solver.
  - unfold two_couples; simpl. set_solver.
Defined.

(** ** [merge] *)

(** C5. After [merge G H], an identifier of [H]'s people (marriages) maps
    to [H]'s person (marriage), an identifier that [H] does not have keeps
    what [G] had, and the edges are the union of the two edge sets. *)
Theorem merge_last_write_wins (G H : FamilyTree) :
  tree_wf H →
  let G' := merge G H in
  (∀ k p, dict_get (people H) k = Some p → dict_get (people G') k = Some p)
  ∧ (∀ k, k ∉ (people H).*1 → dict_get (people G') k = dict_get (people G) k)
  ∧ (∀ k m, dict_get (marriages H) k = Some m →
            dict_get (marriages G') k = Some m)
  ∧ (∀ k, k ∉ (marriages H).*1 →
          dict_get (marriages G') k = dict_get (marriages G) k)
  ∧ edges G' = edges G ∪ edges H
  ∧ (∀ e, e ∈ edges G' ↔ e ∈ edges G ∨ e ∈ edges H).
Proof.
  intros [Hp Hm] G'. subst G'. unfold merge; simpl. split_and!.
  - intros k p Hk. by rewrite dict_get_update, Hk.
  - intros k Hk%dict_get_None. by rewrite dict_get_update, Hk.
  - intros k m Hk. by rewrite dict_get_update, Hk.
  - intros k Hk%dict_get_None. by rewrite dict_get_update, Hk.
  - done.
  - intros e. apply elem_of_union.
Qed.

Lemma merge_last_write_wins_witness :
  dict_get (people (merge two_couples shared_key)) 1%N
    = Some (mkPerson "A" MALE 1950 None)
  ∧ dict_get (marriages (merge two_couples shared_key)) 1%N
    = Some (mkMarriage [])
  ∧ dict_get (marriages (merge two_couples shared_key)) 3%N
    = dict_get (marriages two_couples) 3%N.
Proof.
  assert (Hwf : tree_wf shared_key).
  { split; unfold dict_wf, shared_key; simpl;
      apply (bool_decide_unpack _); by vm_compute. }
  destruct (merge_last_write_wins two_couples shared_key Hwf)
    as (Hp & _ & Hm & Hm' & _).
  split_and!; [by apply Hp | by apply Hm | apply Hm'].
  unfold shared_key; simpl. set_solver.
Defined.

(** ** [delete_node] *)

Lemma prune_no_edge node_id t e :
  e ∈ edges (prune node_id t) ↔
    e ∈ edges t ∧ source e ≠ node_id ∧ target e ≠ node_id.
Proof. unfold prune; simpl. rewrite elem_of_filter. naive_solver. Qed.

Lemma prune_keys node_id t : (marriages (prune node_id t)).*1 = (marriages t).*1.
Proof.
  unfold prune; simpl. rewrite <-list_fmap_compose. by apply list_fmap_ext.
Qed.

Lemma prune_no_child node_id t k m :
  (k, m) ∈ marriages (prune node_id t) → node_id ∉ children m.
Proof.
  unfold prune; simpl. intros ([k0 m0] & [= -> ->] & _)%list_elem_of_fmap.
  simpl. rewrite list_elem_of_filter. naive_solver.
Qed.

(** The cascade on any tree.  For a stored identifier [X], [delete_node]
    succeeds.  It deletes [X] from [people] if [X] is a key there and from
    [marriages] otherwise, keeps exactly the edges whose source and target
    differ from [X], and removes [X] from the children of every remaining
    marriage.  A second [delete_node] of [X] raises "Node not found"
    exactly when [X] was not a key of both dictionaries. *)
Lemma delete_node_cascade t X :
  X ∈ (people t).*1 ∨ X ∈ (marriages t).*1 →
  ∃ t', delete_node t X = Ok t'
    ∧ (if dict_in X (people t)
       then people t' = dict_del (people t) X
            ∧ marriages t' = without_child X <$> marriages t
       else people t' = people t
            ∧ marriages t' = without_child X <$> dict_del (marriages t) X)
    ∧ (∀ e, e ∈ edges t' ↔ e ∈ edges t ∧ source e ≠ X ∧ target e ≠ X)
    ∧ (∀ e, e ∈ edges t' → source e ≠ X ∧ target e ≠ X)
    ∧ (∀ k m, (k, m) ∈ marriages t' → X ∉ children m)
    ∧ (delete_node t' X = Raise (ValueError "Node not found")
       ↔ ¬ (X ∈ (people t).*1 ∧ X ∈ (marriages t).*1)).
Proof.
  intros Hin. unfold delete_node.
  destruct (dict_in X (people t)) eqn:Hp.
  - eexists. split; [reflexivity|]. split_and!.
    + done.
    + done.
    + intros e. by rewrite prune_no_edge.
    + intros e ?%prune_no_edge. tauto.
    + apply prune_no_child.
    + apply dict_in_spec in Hp. simpl.
      assert (Hgone : dict_in X (dict_del (people t) X) = false).
      { apply dict_in_false. rewrite dict_del_keys. tauto. }
      rewrite Hgone.
      destruct (dict_in X (without_child X <$> marriages t)) eqn:Hm.
      * split; [done|]. intros []. split; [done|].
        apply dict_in_spec in Hm.
        by rewrite <-list_fmap_compose in Hm.
      * split; [|done]. intros _ [_ Hm']. apply dict_in_false in Hm.
        by rewrite <-list_fmap_compose in Hm.
  - destruct (dict_in X (marriages t)) eqn:Hm.
    + eexists. split; [reflexivity|]. split_and!.
      * done.
      * done.
      * intros e. by rewrite prune_no_edge.
      * intros e ?%prune_no_edge. tauto.
      * apply prune_no_child.
      * simpl. rewrite Hp.
        assert (Hgone : dict_in X (without_child X <$> dict_del (marriages t) X)
                        = false).
        { apply dict_in_false. rewrite <-list_fmap_compose.
          change (X ∉ (dict_del (marriages t) X).*1).
          rewrite dict_del_keys. tauto. }
        rewrite Hgone. split; [|done]. intros _ [Hp' _].
        apply dict_in_false in Hp. done.
    + apply dict_in_false in Hp, Hm. tauto.
Qed.

(** Outside the data model, where one identifier is a key of both
    dictionaries: the first [delete_node] removes the person only, and the
    second one removes the marriage. *)
Lemma delete_node_twice_shared_key :
  1%N ∈ (nodes shared_key).*1
  ∧ delete_node shared_key 1%N = Ok (mkFamilyTree [] [(1%N, mkMarriage [])] ∅)
  ∧ delete_node (mkFamilyTree [] [(1%N, mkMarriage [])] ∅) 1%N = Ok empty_tree.
Proof. split_and!; [set_solver | by vm_compute ..]. Qed.

(** ** [sort] *)

Lemma string_ltb_asym s1 s2 : String.ltb s1 s2 = true → String.ltb s2 s1 = false.
Proof.
  unfold String.ltb. rewrite (String.compare_antisym s2 s1).
  by destruct (String.compare s1 s2).
Qed.

(** The tuple order of the code is the order on composite keys. *)
Lemma key_lt_composite (a b : N * Person) :
  key_lt (sort_key a) (sort_key b)
    = composite_lt (composite_key a.2) (composite_key b.2).
Proof.
  unfold key_lt, sort_key, composite_lt, composite_key.
  destruct (gender a.2), (gender b.2); simpl; try done;
    (destruct (Z.eqb_spec (birth_year a.2) (birth_year b.2)) as [Hy|Hy]; simpl;
     [by rewrite Hy, Z.ltb_irrefl | by rewrite ?orb_false_r]).
Qed.

Lemma composite_lt_asym a b : composite_lt a b = true → composite_lt b a = false.
Proof.
  destruct a as [[r1 y1] n1], b as [[r2 y2] n2]; simpl.
  destruct (Nat.ltb_spec r1 r2), (Nat.ltb_spec r2 r1),
    (Nat.eqb_spec r1 r2), (Nat.eqb_spec r2 r1); simpl; try done; try lia.
  destruct (Z.ltb_spec y1 y2), (Z.ltb_spec y2 y1),
    (Z.eqb_spec y1 y2), (Z.eqb_spec y2 y1); simpl; try done; try lia.
  apply string_ltb_asym.
Qed.

Section sorted_facts.
Context {A B : Type} (lt : B → B → bool) (key : A → B).
Hypothesis lt_asym :
  ∀ x y, lt (key x) (key y) = true → lt (key y) (key x) = false.

(** [x] is not after [y]. *)
Let ord (x y : A) : Prop := lt (key y) (key x) = false.

Lemma insert_sorted_HdRel x y l :
  ord y x → HdRel ord y l → HdRel ord y (insert_sorted lt key x l).
Proof.
  intros Hyx Hl. destruct l as [|z l]; simpl; [by constructor|].
  destruct (lt (key z) (key x)); constructor; [|done].
  by apply HdRel_inv in Hl.
Qed.

Lemma insert_sorted_Sorted x l :
  Sorted ord l → Sorted ord (insert_sorted lt key x l).
Proof.
  induction 1 as [|y l Hl IH Hhd]; simpl.
  - by repeat constructor.
  - destruct (lt (key y) (key x)) eqn:Hyx.
    + constructor; [done|]. apply insert_sorted_HdRel; [|done].
      by apply lt_asym.
    + by repeat constructor.
Qed.

Lemma sorted_Sorted l : Sorted ord (sorted lt key l).
Proof.
  induction l; simpl; [constructor|by apply insert_sorted_Sorted].
Qed.

(** Sorting a list that is in order changes nothing. *)
Lemma sorted_fixed l : Sorted ord l → sorted lt key l = l.
Proof.
  induction 1 as [|x l Hl IH Hhd]; simpl; [done|]. rewrite IH.
  destruct Hhd as [|y l Hxy]; simpl; [done|].
  unfold ord in Hxy. by rewrite Hxy.
Qed.

Lemma insert_sorted_perm x l : insert_sorted lt key x l ≡ₚ x :: l.
Proof.
  induction l as [|y l IH]; simpl; [done|].
  destruct (lt (key y) (key x)); [|done].
  rewrite IH. apply Permutation_swap.
Qed.

Lemma sorted_perm l : sorted lt key l ≡ₚ l.
Proof.
  induction l as [|x l IH]; simpl; [done|].
  by rewrite insert_sorted_perm, IH.
Qed.

(** The sort is stable: items with the same key keep their order. *)
Lemma insert_sorted_stable `{EqDecision B} (k : B) x l :
  filter (λ y, key y = k) (insert_sorted lt key x l)
    = filter (λ y, key y = k) (x :: l).
Proof.
  induction l as [|y l IH]; simpl; [done|].
  destruct (lt (key y) (key x)) eqn:Hyx; [|done].
  rewrite (filter_cons _ y), IH, !(filter_cons _ x), !(filter_cons _ y).
  repeat case_decide; try done.
  exfalso. assert (lt (key y) (key x) = false); [|congruence].
  apply lt_asym. congruence.
Qed.

Lemma sorted_stable `{EqDecision B} (k : B) l :
  filter (λ y, key y = k) (sorted lt key l) = filter (λ y, key y = k) l.
Proof.
  induction l as [|x l IH]; simpl; [done|].
  by rewrite insert_sorted_stable, !filter_cons, IH.
Qed.
End sorted_facts.

Lemma key_lt_asym a b :
  key_lt (sort_key a) (sort_key b) = true →
  key_lt (sort_key b) (sort_key a) = false.
Proof. rewrite !key_lt_composite. apply composite_lt_asym. Qed.

Lemma Sorted_weaken {A} (R R' : A → A → Prop) l :
  (∀ x y, R x y → R' x y) → Sorted R l → Sorted R' l.
Proof.
  intros HR. induction 1 as [|x l Hl IH Hhd]; constructor; [done|].
  destruct Hhd; constructor. auto.
Qed.

Lemma sorted_people_in_order (d : list (N * Person)) :
  Sorted in_order (sorted key_lt sort_key d).
Proof.
  eapply Sorted_weaken; [|apply (sorted_Sorted key_lt sort_key key_lt_asym)].
  intros x y Hxy. unfold in_order. by rewrite <-key_lt_composite.
Qed.

Lemma in_order_sorted_fixed (d : list (N * Person)) :
  Sorted in_order d → sorted key_lt sort_key d = d.
Proof.
  intros Hd. apply sorted_fixed. eapply Sorted_weaken; [|exact Hd].
  intros x y Hxy. unfold in_order in Hxy. by rewrite key_lt_composite.
Qed.

Lemma sorted_people_wf (d : list (N * Person)) :
  dict_wf d → dict_wf (sorted key_lt sort_key d).
Proof. unfold dict_wf. by rewrite sorted_perm. Qed.

(** C6. [sort] puts [people] in ascending order of the composite key
    (gender rank, birth year, name): no entry strictly exceeds its
    successor.  The entries are those it started from, the rest of the
    tree is untouched, and sorting twice is sorting once. *)
Theorem sort_in_order_idempotent t :
  dict_wf (people t) →
  Sorted in_order (people (sort t))
  ∧ people (sort t) ≡ₚ people t
  ∧ marriages (sort t) = marriages t ∧ edges (sort t) = edges t
  ∧ sort (sort t) = sort t.
Proof.
  intros Hwf.
  assert (Hp : people (sort t) = sorted key_lt sort_key (people t)).
  { unfold sort; simpl. by apply dict_of_list_id, sorted_people_wf. }
  split_and!.
  - rewrite Hp. apply sorted_people_in_order.
  - rewrite Hp. apply sorted_perm.
  - done.
  - done.
  - unfold sort at 1. rewrite Hp.
    rewrite in_order_sorted_fixed by apply sorted_people_in_order.
    unfold sort. simpl. done.
Qed.

Lemma sort_in_order_idempotent_witness :
  people (sort two_couples) =
    [(1%N, mkPerson "A" MALE 1950 None); (5%N, mkPerson "D" MALE 1960 None);
     (2%N, mkPerson "B" FEMALE 1952 None); (6%N, mkPerson "E" FEMALE 1961 None);
     (7%N, mkPerson "C" OTHER 1990 None)]
  ∧ sort (sort two_couples) = sort two_couples.
Proof.
  assert (Hwf : dict_wf (people two_couples)).
  { unfold dict_wf, two_couples; simpl. apply (bool_decide_unpack _).
    by vm_compute. }
  destruct (sort_in_order_idempotent two_couples Hwf) as (_ & _ & _ & _ & Hidem).
  split; [by vm_compute | exact Hidem].
Defined.

(** ** The traversal of [connected] *)

Section dfs_facts.
Variable adj : gmap N (gset N).

Let R (x y : N) : Prop := y ∈ adj_get adj x.

(** What a call of [dfs] on an unvisited node establishes. *)
Let post (node_id : N) (V V' : gset N) (U : gset N) : Prop :=
  V ∪ {[node_id]} ⊆ V' ∧ V' ⊆ V ∪ U
  ∧ (∀ x, x ∈ V' → x ∉ V → ∀ y, R x y → y ∈ V')
  ∧ (∀ x, x ∈ V' → x ∉ V → rtc R node_id x).

Variable U : gset N.
Hypothesis U_closed : ∀ x y, x ∈ U → R x y → y ∈ U.

Lemma dfs_post fuel : ∀ node_id V,
  node_id ∈ U → node_id ∉ V → size (U ∖ V) ≤ fuel →
  ∃ V', dfs fuel adj node_id V = Some V' ∧ post node_id V V' U.
Proof.
  induction fuel as [|fuel IH]; intros node_id V HnU HnV Hsize.
  { exfalso. assert (U ∖ V ≡ ∅) as Hempty by (apply size_empty_iff; lia).
    set_solver. }
  simpl.
  (* the loop over the neighbours, from any state [W] it may be in *)
  assert (Hloop : ∀ nbs W,
    (∀ nb, nb ∈ nbs → R node_id nb) →
    V ∪ {[node_id]} ⊆ W → W ⊆ V ∪ U →
    (∀ x, x ∈ W → x ∉ V → x ≠ node_id → ∀ y, R x y → y ∈ W) →
    (∀ x, x ∈ W → x ∉ V → rtc R node_id x) →
    ∃ W',
      foldl (λ acc neighbor,
               visited ← acc;
               if decide (neighbor ∈ visited) then Some visited
               else dfs fuel adj neighbor visited) (Some W) nbs = Some W'
      ∧ W ⊆ W' ∧ W' ⊆ V ∪ U
      ∧ (∀ nb, nb ∈ nbs → nb ∈ W')
      ∧ (∀ x, x ∈ W' → x ∉ V → x ≠ node_id → ∀ y, R x y → y ∈ W')
      ∧ (∀ x, x ∈ W' → x ∉ V → rtc R node_id x)).
  { induction nbs as [|nb nbs IHnbs]; intros W Hnbs HVW HWU Hcl Hre.
    - exists W. split_and!; try done. by intros nb ?%elem_of_nil.
    - simpl. assert (Hnb : R node_id nb) by (apply Hnbs; left).
      case_decide as HnbW.
      + destruct (IHnbs W) as (W' & Hf & HWW' & HW'U & Hall & Hcl' & Hre');
          try done.
        { intros nb' ?. apply Hnbs. by right. }
        exists W'. split_and!; try done.
        intros nb' [-> | ?]%elem_of_cons; [set_solver|by apply Hall].
      + destruct (IH nb W) as (W1 & Hdfs & HW1 & HW1U & Hcl1 & Hre1).
        { by eapply U_closed. }
        { done. }
        { assert (U ∖ W ⊂ U ∖ V) as Hlt%subset_size by set_solver. lia. }
        rewrite Hdfs.
        destruct (IHnbs W1) as (W' & Hf & HWW' & HW'U & Hall & Hcl' & Hre').
        { intros nb' ?. apply Hnbs. by right. }
        { set_solver. }
        { set_solver. }
        { intros x HxW1 HxV Hxn y Hxy.
          destruct (decide (x ∈ W)) as [HxW|HxW]; [|by eapply Hcl1].
          apply HW1, elem_of_union_l. by eapply Hcl. }
        { intros x HxW1 HxV.
          destruct (decide (x ∈ W)) as [HxW|HxW]; [by apply Hre|].
          eapply rtc_l; [exact Hnb|]. by apply Hre1. }
        exists W'. split_and!; try done.
        * set_solver.
        * intros nb' [-> | ?]%elem_of_cons; [set_solver|by apply Hall]. }
  destruct (Hloop (elements (adj_get adj node_id)) (V ∪ {[node_id]}))
    as (V' & Hf & HVV' & HV'U & Hall & Hcl & Hre).
  - intros nb ?%elem_of_elements. done.
  - done.
  - set_solver.
  - intros x Hx HxV Hxn. set_solver.
  - intros x Hx HxV. assert (x = node_id) as -> by set_solver. done.
  - exists V'. split; [exact Hf|]. unfold post. split_and!; try done.
    intros x HxV' HxV y Hxy.
    destruct (decide (x = node_id)) as [->|Hne]; [|by eapply Hcl].
    apply Hall, elem_of_elements. exact Hxy.
Qed.

(** With enough fuel, [dfs] from the empty set returns the set of the
    nodes reached from its start. *)
Lemma dfs_reach fuel start :
  start ∈ U → size U ≤ fuel →
  ∃ V, dfs fuel adj start ∅ = Some V ∧ ∀ x, x ∈ V ↔ rtc R start x.
Proof.
  intros HsU Hsize.
  destruct (dfs_post fuel start ∅) as (V & Hdfs & HV & _ & Hcl & Hre).
  - done.
  - set_solver.
  - by replace (U ∖ ∅) with U by set_solver.
  - exists V. split; [done|]. intros x. split.
    + intros Hx. apply Hre; [done|set_solver].
    + revert x. apply (rtc_ind_r (λ x, x ∈ V)); [set_solver|].
      intros y z _ Hyz Hy. apply (Hcl y); [done|set_solver|done].
Qed.
End dfs_facts.

(** ** The adjacency list of [connected] *)

Lemma adj_get_add a b adj x y :
  y ∈ adj_get (adj_add a b adj) x ↔ y ∈ adj_get adj x ∨ (x = a ∧ y = b).
Proof.
  unfold adj_add, adj_get. rewrite lookup_insert.
  case_decide; simpl; set_solver.
Qed.

Lemma adj_get_edge_links e adj x y :
  y ∈ adj_get (add_edge_links e adj) x ↔
    y ∈ adj_get adj x
    ∨ (x = source e ∧ y = target e) ∨ (x = target e ∧ y = source e).
Proof. unfold add_edge_links. rewrite !adj_get_add. tauto. Qed.

Lemma adj_get_edges (E : gset Edge) x y :
  y ∈ adj_get (set_fold add_edge_links ∅ E) x ↔ mkEdge x y ∈ E ∨ mkEdge y x ∈ E.
Proof.
  revert x y.
  apply (set_fold_ind_L
           (λ adj (X : gset Edge), ∀ x y,
              y ∈ adj_get adj x ↔ mkEdge x y ∈ X ∨ mkEdge y x ∈ X)).
  - intros x y. unfold adj_get. rewrite lookup_empty. set_solver.
  - intros [s d] X adj _ IH x y. rewrite adj_get_edge_links, IH. simpl.
    rewrite !elem_of_union, !elem_of_singleton. naive_solver.
Qed.

Lemma adj_get_child_links k ch : ∀ adj x y,
  y ∈ adj_get (foldl (add_child_links k) adj ch) x ↔
    y ∈ adj_get adj x ∨ (x = k ∧ y ∈ ch) ∨ (y = k ∧ x ∈ ch).
Proof.
  induction ch as [|c ch IH]; intros adj x y; simpl.
  - rewrite !elem_of_nil. tauto.
  - rewrite IH. unfold add_child_links. rewrite !adj_get_add, !elem_of_cons.
    naive_solver.
Qed.

Lemma adj_get_node_links items : ∀ adj x y,
  y ∈ adj_get (foldl add_node_links adj items) x ↔
    y ∈ adj_get adj x
    ∨ ∃ k m, (k, NMarriage m) ∈ items
             ∧ ((x = k ∧ y ∈ children m) ∨ (y = k ∧ x ∈ children m)).
Proof.
  induction items as [|[k nd] items IH]; intros adj x y; simpl.
  - split; [tauto|]. intros [?|(k & m & ?%elem_of_nil & _)]; done.
  - rewrite IH. unfold add_node_links. simpl. destruct nd as [p|m].
    + split.
      * intros [?|(k' & m' & Hin & ?)]; [tauto|].
        right. exists k', m'. split; [by right|done].
      * intros [?|(k' & m' & Hin & ?)]; [tauto|].
        apply elem_of_cons in Hin as [[=]|Hin]. right. by exists k', m'.
    + rewrite adj_get_child_links. split.
      * intros [[?|?]|(k' & m' & Hin & ?)]; [tauto| |].
        -- right. exists k, m. split; [left|done].
        -- right. exists k', m'. split; [by right|done].
      * intros [?|(k' & m' & Hin & ?)]; [tauto|].
        apply elem_of_cons in Hin as [[= -> ->]|Hin]; [tauto|].
        right. by exists k', m'.
Qed.

(** The entries of [nodes] and the two dictionaries. *)
Lemma elem_of_dict_update {V} (d o : list (N * V)) kv :
  kv ∈ dict_update d o → kv ∈ d ∨ kv ∈ o.
Proof.
  unfold dict_update. revert d.
  induction o as [|[k0 v0] o IH]; intros d; simpl; [tauto|].
  intros [Hin|Hin]%IH; [|right; by right].
  assert (Hset : ∀ d', kv ∈ dict_set d' k0 v0 → kv ∈ d' ∨ kv = (k0, v0)).
  { clear. induction d' as [|[k1 v1] d' IHd]; simpl.
    - intros ?%list_elem_of_singleton. by right.
    - case_decide; subst.
      + intros [-> | ?]%elem_of_cons; [by right|left; by right].
      + intros [-> | [?|?]%IHd]%elem_of_cons;
          [left; left|left; by right|by right]. }
  apply Hset in Hin as [?| ->]; [by left|right; left].
Qed.

Lemma fmap_fst_prod_map {A B C} (f : B → C) (l : list (A * B)) :
  (prod_map id f <$> l).*1 = l.*1.
Proof. induction l as [|[] l IH]; simpl; [done|by f_equal]. Qed.

Lemma nodes_keys t k :
  k ∈ (nodes t).*1 ↔ k ∈ (people t).*1 ∨ k ∈ (marriages t).*1.
Proof. unfold nodes. by rewrite dict_update_keys, !fmap_fst_prod_map. Qed.

Lemma nodes_wf t : dict_wf (people t) → dict_wf (nodes t).
Proof.
  intros Hwf. apply dict_update_wf. unfold dict_wf.
  by rewrite fmap_fst_prod_map.
Qed.

Lemma nodes_marriage t k m :
  dict_wf (marriages t) →
  (k, NMarriage m) ∈ nodes t ↔ (k, m) ∈ marriages t.
Proof.
  intros Hwf. split.
  - intros [Hin|Hin]%elem_of_dict_update.
    + by apply list_elem_of_fmap in Hin as ([k' p'] & [=] & _).
    + apply list_elem_of_fmap in Hin as ([k' m'] & [= -> ->] & Hin). done.
  - intros Hin. apply dict_get_Some_elem. unfold nodes.
    rewrite dict_get_update.
    + rewrite (elem_dict_get _ k (NMarriage m)); [done| |].
      * unfold dict_wf. by rewrite fmap_fst_prod_map.
      * apply list_elem_of_fmap. by exists (k, m).
    + unfold dict_wf. by rewrite fmap_fst_prod_map.
Qed.

(** Two identifiers are neighbours when an edge joins them, in either
    direction, or when one is a marriage and the other one of its
    children. *)
Lemma linked_spec t x y :
  dict_wf (marriages t) →
  linked t x y ↔
    mkEdge x y ∈ edges t ∨ mkEdge y x ∈ edges t
    ∨ (∃ m, (x, m) ∈ marriages t ∧ y ∈ children m)
    ∨ (∃ m, (y, m) ∈ marriages t ∧ x ∈ children m).
Proof.
  intros Hwf. unfold linked, adjacency_list.
  rewrite adj_get_node_links, adj_get_edges. split.
  - intros [[?|?]|(k & m & Hin%nodes_marriage & [[-> ?]|[-> ?]])]; eauto 10.
  - intros [?|[?|[(m & Hin & ?)|(m & Hin & ?)]]]; [tauto..| |].
    + right. exists x, m. split; [by apply nodes_marriage|tauto].
    + right. exists y, m. split; [by apply nodes_marriage|tauto].
Qed.

Lemma linked_sym t x y : linked t x y → linked t y x.
Proof.
  unfold linked, adjacency_list. rewrite !adj_get_node_links, !adj_get_edges.
  naive_solver.
Qed.

(** ** [connected] *)

Lemma adj_ids_closed adj x y : y ∈ adj_get adj x → y ∈ adj_ids adj.
Proof.
  unfold adj_get, adj_ids. destruct (adj !! x) as [S|] eqn:HS; simpl.
  - intros Hy. apply elem_of_union_r, elem_of_union_list. exists S.
    split; [|done]. apply list_elem_of_fmap. exists (x, S).
    split; [done|]. by apply elem_of_map_to_list.
  - by intros ?%elem_of_empty.
Qed.

(** With the fuel of [connected], or more, the traversal ends, and the
    answer compares the number of identifiers reached from the first node
    with the number of nodes. *)
Lemma connected_with_enough fuel t start nd rest :
  nodes t = (start, nd) :: rest →
  1 + size (adj_ids (adjacency_list t)) ≤ fuel →
  ∃ V : gset N,
    (∀ x, x ∈ V ↔ reachable t start x)
    ∧ connected_with fuel t = Some (bool_decide (size V = length (nodes t))).
Proof.
  intros Hnodes Hfuel. unfold connected_with. rewrite Hnodes.
  destruct (dfs_reach (adjacency_list t)
              ({[start]} ∪ adj_ids (adjacency_list t))) with fuel start
    as (V & Hdfs & HV).
  - intros x y _ Hxy. apply elem_of_union_r. by eapply adj_ids_closed.
  - set_solver.
  - rewrite size_union_alt, size_singleton.
    etrans; [|exact Hfuel]. apply Nat.add_le_mono_l, subseteq_size. set_solver.
  - exists V. split; [exact HV|]. by rewrite Hdfs.
Qed.

Lemma connected_reach t start nd rest :
  nodes t = (start, nd) :: rest →
  ∃ V : gset N,
    (∀ x, x ∈ V ↔ reachable t start x)
    ∧ connected t = Some (bool_decide (size V = length (nodes t))).
Proof. intros Hnodes. by eapply connected_with_enough. Qed.

(** [connected] always returns, and more fuel does not change its answer. *)
Lemma connected_total t :
  ∃ b, connected t = Some b
       ∧ ∀ fuel, 1 + size (adj_ids (adjacency_list t)) ≤ fuel →
                 connected_with fuel t = Some b.
Proof.
  destruct (nodes t) as [|[start nd] rest] eqn:Hnodes.
  - exists true. unfold connected, connected_with. by rewrite Hnodes.
  - destruct (connected_reach t start nd rest Hnodes) as (V & HV & Hc).
    eexists. split; [exact Hc|]. intros fuel Hfuel.
    destruct (connected_with_enough fuel t start nd rest Hnodes Hfuel)
      as (V' & HV' & Hc').
    assert (V' = V) as -> by (apply set_eq; intros x; by rewrite HV, HV').
    exact Hc'.
Qed.

(** The graph is reported connected when what is reached from the first
    node is exactly the set of stored nodes. *)
Lemma connected_true t start nd rest :
  dict_wf (people t) →
  nodes t = (start, nd) :: rest →
  (∀ x, reachable t start x ↔ x ∈ (nodes t).*1) →
  connected t = Some true.
Proof.
  intros Hwf Hnodes Hreach.
  destruct (connected_reach t start nd rest Hnodes) as (V & HV & ->).
  f_equal. apply bool_decide_eq_true.
  assert (V = list_to_set (nodes t).*1) as ->.
  { apply set_eq. intros x. rewrite HV, Hreach. by rewrite elem_of_list_to_set. }
  rewrite size_list_to_set by by apply nodes_wf. by rewrite length_fmap.
Qed.

(** Nothing but the start is reached when no two identifiers are linked. *)
Lemma reachable_unlinked t x y :
  (∀ a b, ¬ linked t a b) → reachable t x y → y = x.
Proof. intros Hno. destruct 1 as [|a b c Hab _]; [done|]. by apply Hno in Hab. Qed.

(** C7. The empty tree is connected; so is a tree with one person and
    nothing else; a tree with two people and nothing else is not; once
    [create_marriage] has been called on it with the two people as
    spouses (and children, if any, among the two), it is. *)
Theorem connected_small_trees :
  connected empty_tree = Some true
  ∧ (∀ id p, connected (mkFamilyTree [(id, p)] [] ∅) = Some true)
  ∧ (∀ id1 p1 id2 p2,
       id1 ≠ id2 →
       let t := mkFamilyTree [(id1, p1); (id2, p2)] [] ∅ in
       connected t = Some false
       ∧ ∀ children' uuid,
           (∀ c, c ∈ children_or_empty children' → c = id1 ∨ c = id2) →
           connected (create_marriage t id1 id2 children' uuid).2 = Some true).
Proof.
  split_and!.
  - by vm_compute.
  - intros id p. set (t := mkFamilyTree [(id, p)] [] ∅).
    assert (Hno : ∀ a b, ¬ linked t a b).
    { intros a b. rewrite linked_spec by constructor. simpl.
      intros [?|[?|[(m & ?%elem_of_nil & _)|(m & ?%elem_of_nil & _)]]];
        set_solver. }
    apply (connected_true t id (NPerson p) []).
    + apply NoDup_singleton.
    + done.
    + intros x. simpl. rewrite list_elem_of_singleton. split.
      * by apply reachable_unlinked.
      * intros ->. apply rtc_refl.
  - intros id1 p1 id2 p2 Hne t. split.
    + assert (Hno : ∀ a b, ¬ linked t a b).
      { intros a b. rewrite linked_spec by constructor. simpl.
        intros [?|[?|[(m & ?%elem_of_nil & _)|(m & ?%elem_of_nil & _)]]];
          set_solver. }
      destruct (connected_reach t id1 (NPerson p1) [(id2, NPerson p2)])
        as (V & HV & ->).
      { done. }
      f_equal. apply bool_decide_eq_false.
      assert (V = {[id1]}) as ->.
      { apply set_eq. intros x. rewrite HV, elem_of_singleton. split.
        - by apply reachable_unlinked.
        - intros ->. apply rtc_refl. }
      rewrite size_singleton. by simpl.
    + intros children' uuid Hch.
      set (t' := (create_marriage t id1 id2 children' uuid).2).
      assert (Hwf : dict_wf (marriages t')).
      { apply NoDup_singleton. }
      assert (Hlink : ∀ x y, linked t' x y ↔
                (x = id1 ∧ y = uuid) ∨ (x = id2 ∧ y = uuid)
                ∨ (x = uuid ∧ y = id1) ∨ (x = uuid ∧ y = id2)
                ∨ (x = uuid ∧ y ∈ children_or_empty children')
                ∨ (y = uuid ∧ x ∈ children_or_empty children')).
      { intros x y. rewrite linked_spec by done. subst t' t. simpl.
        rewrite !elem_of_union, !elem_of_singleton, !elem_of_empty.
        split.
        - intros [[[[]|[= -> ->]]|[= -> ->]]
                 |[[[[]|[= -> ->]]|[= -> ->]]
                 |[(m & [= -> ->]%list_elem_of_singleton & ?)
                  |(m & [= -> ->]%list_elem_of_singleton & ?)]]];
            simpl in *; tauto.
        - intros [[-> ->]|[[-> ->]|[[-> ->]|[[-> ->]|[[-> ?]|[-> ?]]]]]];
            [tauto..| |].
          + right; right; left. eexists. split; [left|done].
          + right; right; right. eexists. split; [left|done]. }
      assert (Hnodes : ∃ nd rest, nodes t' = (id1, nd) :: rest).
      { subst t' t. unfold nodes. simpl. case_decide; eauto. }
      destruct Hnodes as (nd & rest & Hnodes).
      apply (connected_true t' id1 nd rest).
      * subst t' t. unfold dict_wf. simpl.
        apply NoDup_cons. split; [set_solver|apply NoDup_singleton].
      * done.
      * assert (Hkeys : ∀ x, x ∈ (nodes t').*1 ↔ x = id1 ∨ x = id2 ∨ x = uuid).
        { intros x. rewrite nodes_keys. subst t' t. simpl.
          rewrite !elem_of_cons, !elem_of_nil. tauto. }
        intros x. rewrite Hkeys. split.
        -- revert x.
           apply (rtc_ind_r (λ x, x = id1 ∨ x = id2 ∨ x = uuid)); [tauto|].
           intros y z _ Hyz%Hlink Hy.
           destruct Hyz
             as [[-> ->]|[[-> ->]|[[-> ->]|[[-> ->]|[[-> Hz]|[-> Hz]]]]]];
             try tauto.
           apply Hch in Hz. tauto.
        -- assert (H1 : reachable t' id1 uuid).
           { apply rtc_once, Hlink. tauto. }
           intros [-> | [-> | ->]]; [apply rtc_refl| |done].
           eapply rtc_r; [exact H1|]. apply Hlink. tauto.
Qed.

Lemma connected_small_trees_witness :
  connected (mkFamilyTree
               [(1%N, mkPerson "A" MALE 1950 None);
                (2%N, mkPerson "B" FEMALE 1952 None)] [] ∅) = Some false
  ∧ connected
      (create_marriage
         (mkFamilyTree
            [(1%N, mkPerson "A" MALE 1950 None);
             (2%N, mkPerson "B" FEMALE 1952 None)] [] ∅)
         1%N 2%N None 3%N).2 = Some true.
Proof.
  destruct connected_small_trees as (_ & _ & Htwo).
  destruct (Htwo 1%N (mkPerson "A" MALE 1950 None)
                 2%N (mkPerson "B" FEMALE 1952 None)) as [Hfalse Htrue].
  - done.
  - split; [exact Hfalse|]. apply Htrue. by intros c ?%elem_of_nil.
Defined.

(** In a tree where an identifier that is no stored node is referenced by
    an edge or a children list and is reached from the first node, and
    every stored node is reached from the first node too, [connected]
    returns [False]: the visited set is larger than the set of nodes. *)
Lemma connected_false_on_dangling t start ident :
  tree_wf t →
  head (nodes t).*1 = Some start →
  dangling t ident →
  reachable t start ident →
  (∀ k, k ∈ (nodes t).*1 → reachable t start k) →
  connected t = Some false.
Proof.
  intros [Hwf _] Hstart [Hdang _] Hreach Hall.
  assert (∃ nd rest, nodes t = (start, nd) :: rest) as (nd & rest & Hnodes).
  { destruct (nodes t) as [|[start' nd] rest]; [done|].
    simpl in Hstart. injection Hstart as ->. eauto. }
  destruct (connected_reach t start nd rest Hnodes) as (V & HV & ->).
  f_equal. apply bool_decide_eq_false.
  assert (Hsub : list_to_set (nodes t).*1 ∪ {[ident]} ⊆ V).
  { intros x [Hx%elem_of_list_to_set|Hx%elem_of_singleton]%elem_of_union.
    - by apply HV, Hall.
    - subst x. by apply HV. }
  apply subseteq_size in Hsub. rewrite size_union, size_singleton in Hsub.
  - rewrite size_list_to_set, length_fmap in Hsub by by apply nodes_wf. lia.
  - set_solver.
Qed.

Lemma connected_false_on_dangling_witness : connected stray_child = Some false.
Proof.
  assert (H13 : linked stray_child 1%N 3%N) by by vm_compute.
  assert (H32 : linked stray_child 3%N 2%N) by by vm_compute.
  assert (H39 : linked stray_child 3%N 9%N) by by vm_compute.
  apply (connected_false_on_dangling stray_child 1%N 9%N).
  - split; unfold dict_wf; simpl; apply (bool_decide_unpack _); by vm_compute.
  - done.
  - split.
    + apply (bool_decide_unpack _). by vm_compute.
    + right. exists 3%N, (mkMarriage [9%N]). split; [left|left].
  - eapply rtc_l; [exact H13|]. by apply rtc_once.
  - intros k Hk.
    assert (Hk' : k ∈ [1%N; 2%N; 3%N]) by exact Hk.
    rewrite !elem_of_cons, elem_of_nil in Hk'.
    destruct Hk' as [->|[->|[->|[]]]].
    + apply rtc_refl.
    + eapply rtc_l; [exact H13|]. by apply rtc_once.
    + by apply rtc_once.
Defined.

(** In [stray_edge] the identifier 9 is no stored node, an edge references
    it and it is reached from the first node; [connected] returns [True]
    although person 2 is not reached: the visited set, which holds 1 and
    9, has as many elements as there are nodes. *)
Lemma connected_true_despite_dangling :
  head (nodes stray_edge).*1 = Some 1%N
  ∧ dangling stray_edge 9%N
  ∧ reachable stray_edge 1%N 9%N
  ∧ ¬ reachable stray_edge 1%N 2%N
  ∧ connected stray_edge = Some true.
Proof.
  assert (Hlink : ∀ x y, linked stray_edge x y ↔
                         (x = 1%N ∧ y = 9%N) ∨ (x = 9%N ∧ y = 1%N)).
  { intros x y. rewrite linked_spec by constructor. simpl.
    rewrite !elem_of_singleton. split.
    - intros [[= -> ->]|[[= -> ->]|[(m & ?%elem_of_nil & _)
                                  |(m & ?%elem_of_nil & _)]]]; tauto.
    - intros [[-> ->]|[-> ->]]; tauto. }
  split_and!.
  - done.
  - split.
    + apply (bool_decide_unpack _). by vm_compute.
    + left. exists (mkEdge 1%N 9%N). split; [set_solver|by right].
  - apply rtc_once, Hlink. tauto.
  - intros Hreach.
    assert (Hinv : ∀ x, reachable stray_edge 1%N x → x = 1%N ∨ x = 9%N).
    { apply (rtc_ind_r (λ x, x = 1%N ∨ x = 9%N)); [tauto|].
      intros y z _ Hyz%Hlink Hy. tauto. }
    apply Hinv in Hreach as [|]; done.
  - by vm_compute.
Qed.

(** C10 (the code departs from it). [unstored_spouse] is built by
    [create_person] and [create_marriage] alone.  The identifier 9 is no
    stored node, an edge references it, and it is reached from the first
    node; person 2 is a stored node that is not reached from the first
    node.  [connected] returns [True]: the visited set, which holds 1, 3
    and 9, has as many elements as there are nodes. *)
Theorem connected_true_unreached_person :
  people unstored_spouse
    = [(1%N, mkPerson "A" MALE 1950 None); (2%N, mkPerson "B" FEMALE 1952 None)]
  ∧ marriages unstored_spouse = [(3%N, mkMarriage [])]
  ∧ edges unstored_spouse = {[mkEdge 1%N 3%N; mkEdge 9%N 3%N]}
  ∧ head (nodes unstored_spouse).*1 = Some 1%N
  ∧ dangling unstored_spouse 9%N
  ∧ reachable unstored_spouse 1%N 9%N
  ∧ 2%N ∈ (nodes unstored_spouse).*1
  ∧ ¬ reachable unstored_spouse 1%N 2%N
  ∧ connected unstored_spouse = Some true.
Proof.
  assert (Hp : people unstored_spouse
               = [(1%N, mkPerson "A" MALE 1950 None);
                  (2%N, mkPerson "B" FEMALE 1952 None)]) by by vm_compute.
  assert (Hm : marriages unstored_spouse = [(3%N, mkMarriage [])])
    by by vm_compute.
  assert (He : edges unstored_spouse = {[mkEdge 1%N 3%N; mkEdge 9%N 3%N]})
    by by vm_compute.
  assert (Hkeys : (nodes unstored_spouse).*1 = [1%N; 2%N; 3%N])
    by by vm_compute.
  assert (Hlink : ∀ x y, linked unstored_spouse x y ↔
                         (x = 1%N ∧ y = 3%N) ∨ (x = 3%N ∧ y = 1%N)
                         ∨ (x = 9%N ∧ y = 3%N) ∨ (x = 3%N ∧ y = 9%N)).
  { intros x y. rewrite linked_spec.
    - rewrite He, Hm. rewrite !elem_of_union, !elem_of_singleton. split.
      + intros [[[= -> ->]|[= -> ->]]|[[[= -> ->]|[= -> ->]]
               |[(m & [= -> ->]%list_elem_of_singleton & Hc)
                |(m & [= -> ->]%list_elem_of_singleton & Hc)]]];
          try tauto; by apply elem_of_nil in Hc.
      + intros [[-> ->]|[[-> ->]|[[-> ->]|[-> ->]]]]; tauto.
    - unfold dict_wf. rewrite Hm. apply NoDup_singleton. }
  split; [exact Hp|]. split; [exact Hm|]. split; [exact He|].
  split; [by rewrite Hkeys|]. split; [|split; [|split; [|split]]].
  - split.
    + rewrite Hkeys. apply (bool_decide_unpack _). by vm_compute.
    + left. exists (mkEdge 9%N 3%N). rewrite He. split; [set_solver|by left].
  - eapply rtc_l; [apply Hlink; tauto|]. apply rtc_once, Hlink. tauto.
  - rewrite Hkeys. set_solver.
  - intros Hreach.
    assert (Hinv : ∀ x, reachable unstored_spouse 1%N x →
                        x = 1%N ∨ x = 3%N ∨ x = 9%N).
    { apply (rtc_ind_r (λ x, x = 1%N ∨ x = 3%N ∨ x = 9%N)); [tauto|].
      intros y z _ Hyz%Hlink Hy. tauto. }
    apply Hinv in Hreach as [|[|]]; done.
  - by vm_compute.
Qed.


(** ** More on dictionaries *)

Section dict_more.
Context {K V : Type} `{EqDecision K}.
Implicit Types (d o : list (K * V)) (k : K) (v : V).

Lemma filter_not_in_snoc (l1 l2 : list K) k :
  k ∉ l2 →
  filter (λ x, x ∉ l1 ++ [k]) l2 = filter (λ x, x ∉ l1) l2.
Proof.
  induction l2 as [|x l2 IH]; [done|].
  rewrite not_elem_of_cons. intros [Hne Hk].
  rewrite !filter_cons, IH by done.
  destruct (decide (x ∉ l1 ++ [k])) as [Hx|Hx], (decide (x ∉ l1)) as [Hx'|Hx'];
    try done; exfalso.
  - apply Hx'. intros ?. apply Hx. apply elem_of_app. by left.
  - apply Hx. intros [?|?%list_elem_of_singleton]%elem_of_app; congruence.
Qed.

(** The keys after [d.update(o)]: those of [d] in their order, then the new
    keys of [o] in theirs. *)
Lemma dict_update_keys_order d o :
  dict_wf o →
  (dict_update d o).*1 = d.*1 ++ filter (λ k, k ∉ d.*1) o.*1.
Proof.
  unfold dict_update, dict_wf. revert d.
  induction o as [|[k v] o IH]; intros d; simpl.
  - by rewrite app_nil_r.
  - rewrite NoDup_cons. intros [Hk Ho]. rewrite IH by done.
    rewrite dict_set_keys, filter_cons. simpl.
    destruct (decide (k ∈ d.*1)) as [Hin|Hin].
    + rewrite decide_False; [done|]. by intros ?.
    + rewrite decide_True by done.
      rewrite filter_not_in_snoc by done. by rewrite <-(assoc_L (++)).
Qed.

(** Dictionaries with the same keys in the same order and the same
    values are equal. *)
Lemma dict_ext d o :
  dict_wf d → d.*1 = o.*1 → (∀ k, dict_get d k = dict_get o k) → d = o.
Proof.
  unfold dict_wf. revert o.
  induction d as [|[k v] d IH]; intros [|[k' v'] o]; simpl; try done.
  rewrite NoDup_cons. intros [Hk Hd] [= <- Hkeys] Hget.
  pose proof (Hget k) as Hv. rewrite !decide_True in Hv by done.
  injection Hv as <-. f_equal. apply IH; [done..|].
  intros k0. specialize (Hget k0).
  destruct (decide (k = k0)) as [<-|Hne]; [|done].
  transitivity (@None V); [|symmetry]; apply dict_get_None; [done|].
  intros Hin. apply Hk. revert Hin. unfold fmap. by rewrite Hkeys.
Qed.

Lemma dict_get_perm d o k :
  dict_wf d → d ≡ₚ o → dict_get d k = dict_get o k.
Proof.
  intros Hwf Hperm.
  assert (Hwf' : dict_wf o) by (unfold dict_wf in *; by rewrite <-Hperm).
  destruct (dict_get d k) as [v|] eqn:Hd.
  - symmetry. apply elem_dict_get; [done|].
    rewrite <-Hperm. by apply dict_get_Some_elem.
  - symmetry. apply dict_get_None. apply dict_get_None in Hd.
    by rewrite <-Hperm.
Qed.

Lemma dict_set_same d k v : dict_get d k = Some v → dict_set d k v = d.
Proof.
  induction d as [|[k0 v0] d IH]; simpl; [done|].
  case_decide; [by intros [= ->]|]. intros ?. f_equal. auto.
Qed.

Lemma dict_set_set d k v v' :
  dict_set (dict_set d k v) k v' = dict_set d k v'.
Proof.
  induction d as [|[k0 v0] d IH]; simpl.
  - by rewrite decide_True.
  - case_decide; simpl; [by rewrite decide_True|].
    rewrite decide_False by done. by f_equal.
Qed.

Lemma dict_get_fmap {W} (f : V → W) d k :
  dict_get (prod_map id f <$> d) k = f <$> dict_get d k.
Proof.
  induction d as [|[k0 v0] d IH]; simpl; [done|]. by case_decide.
Qed.
End dict_more.

(** ** [nodes] and [__getitem__] *)

Lemma nodes_keys_order t :
  dict_wf (marriages t) →
  (nodes t).*1
    = (people t).*1 ++ filter (λ k, k ∉ (people t).*1) (marriages t).*1.
Proof.
  intros Hwf. unfold nodes. rewrite dict_update_keys_order.
  - by rewrite !fmap_fst_prod_map.
  - unfold dict_wf. by rewrite fmap_fst_prod_map.
Qed.

(** X1. [tree[node_id]] returns the marriage stored under [node_id] if
    there is one, else the person stored under it, and raises [KeyError]
    exactly when [node_id] is a key of neither dictionary: on a shared
    identifier the marriage hides the person. *)
Theorem getitem_marriage_first t node_id :
  dict_wf (marriages t) →
  getitem t node_id =
    match dict_get (marriages t) node_id, dict_get (people t) node_id with
    | Some m, _ => Ok (NMarriage m)
    | None, Some p => Ok (NPerson p)
    | None, None => Raise (KeyError node_id)
    end.
Proof.
  intros Hwf. unfold getitem, nodes. rewrite dict_get_update.
  - rewrite !dict_get_fmap.
    by destruct (dict_get (marriages t) node_id),
      (dict_get (people t) node_id).
  - unfold dict_wf. by rewrite fmap_fst_prod_map.
Qed.

Lemma getitem_marriage_first_witness :
  getitem shared_key 1%N = Ok (NMarriage (mkMarriage []))
  ∧ getitem two_couples 2%N = Ok (NPerson (mkPerson "B" FEMALE 1952 None))
  ∧ getitem two_couples 8%N = Raise (KeyError 8%N).
Proof.
  split_and!.
  - rewrite getitem_marriage_first; [done|].
    unfold dict_wf; simpl. apply (bool_decide_unpack _). by vm_compute.
  - by vm_compute.
  - by vm_compute.
Defined.



(** ** More on the traversal *)

(** X3. Called on any start identifier with an empty visited set, and
    with a recursion depth of at least one more than the number of
    identifiers of the adjacency list, [dfs] returns, and what it has
    visited is exactly what is reached from the start. *)
Theorem dfs_visits_reachable t start fuel :
  1 + size (adj_ids (adjacency_list t)) ≤ fuel →
  ∃ V : gset N,
    dfs fuel (adjacency_list t) start ∅ = Some V
    ∧ ∀ x, x ∈ V ↔ reachable t start x.
Proof.
  intros Hfuel.
  apply (dfs_reach (adjacency_list t)
           ({[start]} ∪ adj_ids (adjacency_list t))).
  - intros x y _ Hxy. apply elem_of_union_r. by eapply adj_ids_closed.
  - set_solver.
  - rewrite size_union_alt, size_singleton.
    etrans; [|exact Hfuel]. apply Nat.add_le_mono_l, subseteq_size. set_solver.
Qed.

Lemma dfs_visits_reachable_witness :
  ∃ V : gset N,
    dfs 20 (adjacency_list two_couples) 5%N ∅ = Some V
    ∧ ∀ x, x ∈ V ↔ reachable two_couples 5%N x.
Proof.
  apply dfs_visits_reachable. apply Nat.leb_le. by vm_compute.
Defined.

Lemma connected_empty t : nodes t = [] → connected t = Some true.
Proof. intros Hn. unfold connected, connected_with. by rewrite Hn. Qed.

Lemma reachable_iff t1 t2 x y :
  (∀ a b, linked t1 a b ↔ linked t2 a b) →
  reachable t1 x y ↔ reachable t2 x y.
Proof.
  intros Hl. unfold reachable.
  split; induction 1 as [|a b c Hab _ IH]; try done;
    (eapply rtc_l; [by apply Hl|done]).
Qed.

(** The answer depends on the first node, the number of nodes and the
    links only. *)
Lemma connected_congr t1 t2 :
  head (nodes t1).*1 = head (nodes t2).*1 →
  length (nodes t1) = length (nodes t2) →
  (∀ a b, linked t1 a b ↔ linked t2 a b) →
  connected t1 = connected t2.
Proof.
  intros Hhead Hlen Hl.
  destruct (nodes t1) as [|[s1 nd1] rest1] eqn:Hn1,
    (nodes t2) as [|[s2 nd2] rest2] eqn:Hn2; try done.
  - by rewrite !connected_empty.
  - simpl in Hhead. injection Hhead as <-.
    destruct (connected_reach t1 s1 nd1 rest1 Hn1) as (V1 & HV1 & ->).
    destruct (connected_reach t2 s1 nd2 rest2 Hn2) as (V2 & HV2 & ->).
    assert (V1 = V2) as ->.
    { apply set_eq. intros x. rewrite HV1, HV2. by apply reachable_iff. }
    by rewrite Hn1, Hn2, Hlen.
Qed.

Lemma reachable_sym t x y : reachable t x y → reachable t y x.
Proof.
  induction 1 as [|a b c Hab _ IH]; [apply rtc_refl|].
  eapply rtc_r; [exact IH|]. by apply linked_sym.
Qed.

Lemma linked_in_nodes t x y :
  dict_wf (marriages t) → no_dangling t → linked t x y →
  x ∈ (nodes t).*1 ∧ y ∈ (nodes t).*1.
Proof.
  intros Hwf Hnd Hxy.
  assert (Href : ∀ ident,
    (∃ e, e ∈ edges t ∧ (source e = ident ∨ target e = ident))
    ∨ (∃ k m, (k, m) ∈ marriages t ∧ ident ∈ children m) →
    ident ∈ (nodes t).*1).
  { intros ident Hr. destruct (decide (ident ∈ (nodes t).*1)); [done|].
    by destruct (Hnd ident). }
  assert (Hkey : ∀ k m, (k, m) ∈ marriages t → k ∈ (nodes t).*1).
  { intros k m Hin. apply nodes_keys. right.
    apply list_elem_of_fmap. by exists (k, m). }
  apply linked_spec in Hxy; [|done].
  destruct Hxy as [He|[He|[(m & Hm & Hc)|(m & Hm & Hc)]]].
  - split; apply Href; left; exists (mkEdge x y); simpl; auto.
  - split; apply Href; left; exists (mkEdge y x); simpl; auto.
  - split; [by eapply Hkey|]. apply Href. right. eauto.
  - split; [|by eapply Hkey]. apply Href. right. eauto.
Qed.

Lemma reachable_in_nodes t x y :
  dict_wf (marriages t) → no_dangling t →
  x ∈ (nodes t).*1 → reachable t x y → y ∈ (nodes t).*1.
Proof.
  intros Hwf Hnd Hx. induction 1 as [|a b c Hab _ IH]; [done|].
  apply IH. by eapply linked_in_nodes.
Qed.

(** On a tree without dangling references the answer is [True] exactly
    when every node is reached from the first one. *)
Lemma connected_closed t start nd rest :
  tree_wf t → no_dangling t →
  nodes t = (start, nd) :: rest →
  connected t = Some true ↔ ∀ k, k ∈ (nodes t).*1 → reachable t start k.
Proof.
  intros [Hwfp Hwfm] Hnd Hnodes.
  assert (Hstart : start ∈ (nodes t).*1) by (rewrite Hnodes; left).
  split.
  - destruct (connected_reach t start nd rest Hnodes) as (V & HV & ->).
    intros [= Hsize%bool_decide_eq_true] k Hk. apply HV.
    assert (V = list_to_set (nodes t).*1) as ->; [|by apply elem_of_list_to_set].
    apply set_subseteq_size_eq.
    + intros x Hx%HV. apply elem_of_list_to_set.
      by apply (reachable_in_nodes t start x).
    + rewrite size_list_to_set by by apply nodes_wf.
      rewrite length_fmap. lia.
  - intros Hall. apply (connected_true t start nd rest); [done..|].
    intros x. split; [by apply (reachable_in_nodes t start x)|by apply Hall].
Qed.

Lemma connected_not_true t : connected t ≠ Some true → connected t = Some false.
Proof.
  destruct (connected_total t) as ([] & Hb & _); rewrite Hb; [done|].
  by intros _.
Qed.

Lemma two_couples_wf : tree_wf two_couples.
Proof.
  split; unfold dict_wf, two_couples; simpl; apply (bool_decide_unpack _);
    by vm_compute.
Qed.

Lemma two_couples_no_dangling : no_dangling two_couples.
Proof.
  intros ident [Hout Href]. apply Hout.
  assert (Hkeys : (nodes two_couples).*1
                  = [1%N; 2%N; 5%N; 6%N; 7%N; 3%N; 4%N]) by by vm_compute.
  rewrite Hkeys. clear Hout Hkeys.
  destruct Href as [(e & He & Hst)|(k & m & Hin & Hc)].
  - unfold two_couples in He; simpl in He.
    rewrite !elem_of_union, !elem_of_singleton in He.
    destruct He as [[[->| ->]| ->]| ->]; simpl in Hst;
      destruct Hst as [<-|<-]; set_solver.
  - unfold two_couples in Hin; simpl in Hin.
    rewrite !elem_of_cons, elem_of_nil in Hin.
    destruct Hin as [[= -> ->]|[[= -> ->]|[]]]; simpl in Hc;
      by apply elem_of_nil in Hc.
Qed.

(** X4. On a tree in which every referenced identifier is a stored node,
    [connected] is [True] exactly when every stored node is reached from
    the first one, and [False] exactly when some stored node is not. *)
Theorem connected_iff_all_reached t start :
  tree_wf t → no_dangling t →
  head (nodes t).*1 = Some start →
  (connected t = Some true ↔ ∀ k, k ∈ (nodes t).*1 → reachable t start k)
  ∧ (connected t = Some false ↔
       ∃ k, k ∈ (nodes t).*1 ∧ ¬ reachable t start k).
Proof.
  intros Hwf Hnd Hstart.
  assert (∃ nd rest, nodes t = (start, nd) :: rest) as (nd & rest & Hnodes).
  { destruct (nodes t) as [|[start' nd] rest]; [done|].
    simpl in Hstart. injection Hstart as ->. eauto. }
  pose proof (connected_closed t start nd rest Hwf Hnd Hnodes) as Htrue.
  split; [exact Htrue|]. split.
  - intros Hfalse.
    destruct (connected_reach t start nd rest Hnodes) as (V & HV & _).
    destruct (decide (Forall (λ k, k ∈ V) (nodes t).*1)) as [Hall|Hex].
    + rewrite Forall_forall in Hall.
      assert (connected t = Some true); [|congruence].
      apply Htrue. intros k Hk. by apply HV, Hall.
    + apply not_Forall_Exists in Hex; [|apply _].
      apply Exists_exists in Hex as (k & Hk & Hnot).
      exists k. split; [done|]. simpl in Hnot. by rewrite <-HV.
  - intros (k & Hk & Hnot). apply connected_not_true.
    intros Hc. apply Hnot. by apply Htrue.
Qed.

Lemma connected_iff_all_reached_witness :
  connected two_couples = Some true ↔
    ∀ k, k ∈ (nodes two_couples).*1 → reachable two_couples 1%N k.
Proof.
  apply (connected_iff_all_reached two_couples 1%N).
  - exact two_couples_wf.
  - exact two_couples_no_dangling.
  - by vm_compute.
Defined.

Lemma nodes_cases t :
  nodes t = [] ∨ ∃ start nd rest, nodes t = (start, nd) :: rest.
Proof. destruct (nodes t) as [|[start nd] rest]; eauto. Qed.

(** Two trees with the same identifiers and the same links, and without
    dangling references, get the same answer, whichever node comes first. *)
Lemma connected_true_transfer t1 t2 :
  tree_wf t1 → no_dangling t1 → tree_wf t2 → no_dangling t2 →
  (∀ k, k ∈ (nodes t1).*1 ↔ k ∈ (nodes t2).*1) →
  (∀ a b, linked t1 a b ↔ linked t2 a b) →
  connected t1 = Some true → connected t2 = Some true.
Proof.
  intros Hwf1 Hnd1 Hwf2 Hnd2 Hkeys Hl Hc.
  destruct (nodes_cases t2) as [Hn2|(s2 & nd2 & rest2 & Hn2)];
    [by apply connected_empty|].
  assert (Hs2 : s2 ∈ (nodes t2).*1) by (rewrite Hn2; left).
  destruct (nodes_cases t1) as [Hn1|(s1 & nd1 & rest1 & Hn1)].
  { apply Hkeys in Hs2. rewrite Hn1 in Hs2. by apply elem_of_nil in Hs2. }
  apply (connected_closed t2 s2 nd2 rest2); [done..|].
  pose proof (proj1 (connected_closed t1 s1 nd1 rest1 Hwf1 Hnd1 Hn1) Hc)
    as Hall.
  intros k Hk. apply (reachable_iff t1 t2); [done|].
  apply (rtc_trans s2 s1 k); [|by apply Hall, Hkeys].
  apply reachable_sym. by apply Hall, Hkeys.
Qed.

Lemma connected_same_graph t1 t2 :
  tree_wf t1 → no_dangling t1 → tree_wf t2 → no_dangling t2 →
  (∀ k, k ∈ (nodes t1).*1 ↔ k ∈ (nodes t2).*1) →
  (∀ a b, linked t1 a b ↔ linked t2 a b) →
  connected t1 = connected t2.
Proof.
  intros Hwf1 Hnd1 Hwf2 Hnd2 Hkeys Hl.
  destruct (connected_total t1) as ([] & Hb1 & _),
    (connected_total t2) as ([] & Hb2 & _); rewrite Hb1, Hb2; try done.
  - rewrite (connected_true_transfer t1 t2) in Hb2; done.
  - rewrite (connected_true_transfer t2 t1) in Hb1; done.
Qed.

Lemma sort_people t :
  dict_wf (people t) → people (sort t) = sorted key_lt sort_key (people t).
Proof. intros Hwf. unfold sort; simpl. by apply dict_of_list_id, sorted_people_wf. Qed.

Lemma sort_nodes_keys t k :
  dict_wf (people t) → k ∈ (nodes (sort t)).*1 ↔ k ∈ (nodes t).*1.
Proof.
  intros Hwf. rewrite !nodes_keys, sort_people by done.
  by rewrite (sorted_perm key_lt sort_key (people t)).
Qed.

(** X5. On a tree without dangling references, [sort] does not change
    the answer of [connected], although it may change the node the
    traversal starts from. *)
Theorem connected_sort t :
  tree_wf t → no_dangling t → connected (sort t) = connected t.
Proof.
  intros [Hwfp Hwfm] Hnd.
  assert (Hkeys : ∀ k, k ∈ (nodes (sort t)).*1 ↔ k ∈ (nodes t).*1)
    by (intros k; by apply sort_nodes_keys).
  apply connected_same_graph; try done.
  - split; [|done]. rewrite sort_people by done. by apply sorted_people_wf.
  - intros ident [Hout Href]. apply (Hnd ident). split; [|exact Href].
    by rewrite <-Hkeys.
  - intros a b. by rewrite !linked_spec.
Qed.

Lemma connected_sort_witness :
  connected (sort two_couples) = connected two_couples.
Proof.
  apply connected_sort; [exact two_couples_wf|exact two_couples_no_dangling].
Defined.

(** ** Connectivity and the mutations *)

(** X6. A successful [update_person] does not change the answer of
    [connected]: it changes neither the identifiers, nor their order, nor
    the links. *)
Theorem connected_update_person t name' gender' birth_year' death_year'
    person_id r t' :
  dict_wf (marriages t) →
  update_person t name' gender' birth_year' death_year' person_id
    = Ok (r, t') →
  connected t' = connected t.
Proof.
  intros Hwf Hup. destruct r as [k p].
  pose proof Hup as Hup'.
  apply update_person_success_falsy in Hup' as (old & Hin & _ & Hp & _).
  assert (Hm : marriages t' = marriages t ∧ edges t' = edges t).
  { unfold update_person in Hup. destruct person_id.
    - destruct (dict_get _ _); [|done]. by injection Hup as <- <- <-.
    - destruct (filter _ _) as [|[] ?]; [done|]. case_decide; [done|].
      by injection Hup as <- <- <-. }
  destruct Hm as [Hm He].
  assert (Hkeys : (nodes t').*1 = (nodes t).*1).
  { rewrite !nodes_keys_order by by rewrite ?Hm. rewrite Hp, Hm.
    rewrite dict_set_keys_in; [done|].
    apply list_elem_of_fmap. by exists (k, old). }
  apply connected_congr.
  - by rewrite Hkeys.
  - by rewrite <-!(length_fmap fst), Hkeys.
  - intros a b. rewrite !linked_spec by by rewrite ?Hm. by rewrite Hm, He.
Qed.

Lemma connected_update_person_witness :
  ∃ r t', update_person two_couples "A" (Some OTHER) None (Some 2001%Z) None
            = Ok (r, t')
          ∧ connected t' = connected two_couples.
Proof.
  eexists _, _. split; [by vm_compute|].
  eapply (connected_update_person two_couples "A" (Some OTHER) None
            (Some 2001%Z) None).
  - apply two_couples_wf.
  - by vm_compute.
Defined.

(** X7. Adding a new person to a non-empty tree without dangling
    references makes [connected] answer [False]: the new person is linked
    to nothing. *)
Theorem connected_create_person t name' gender' birth_year' death_year' uuid :
  tree_wf t → no_dangling t →
  nodes t ≠ [] →
  (∀ k, (k, mkPerson name' gender' birth_year' death_year') ∉ people t) →
  uuid ∉ (nodes t).*1 →
  connected (create_person t name' gender' birth_year' death_year' uuid).2
    = Some false.
Proof.
  intros [Hwfp Hwfm] Hnd Hne Hnew Hfresh.
  set (person := mkPerson name' gender' birth_year' death_year').
  assert (Hup : uuid ∉ (people t).*1).
  { intros Hin. apply Hfresh, nodes_keys. by left. }
  assert (Ht' : create_person t name' gender' birth_year' death_year' uuid
                = ((uuid, person),
                   mkFamilyTree (people t ++ [(uuid, person)])
                                (marriages t) (edges t))).
  { unfold create_person.
    destruct (List.find _ _) as [[k p]|] eqn:Hfind.
    - apply find_some in Hfind as [Hin Hf]. apply list_elem_of_In in Hin.
      apply same_info_spec in Hf. simpl in Hf. subst p. by destruct (Hnew k).
    - by rewrite dict_set_fresh. }
  rewrite Ht'. simpl.
  set (t' := mkFamilyTree (people t ++ [(uuid, person)]) (marriages t) (edges t)).
  assert (Hkeys : ∀ k, k ∈ (nodes t').*1 ↔ k ∈ (nodes t).*1 ∨ k = uuid).
  { intros k. rewrite !nodes_keys. subst t'. simpl.
    rewrite fmap_app, elem_of_app. simpl. rewrite list_elem_of_singleton. tauto. }
  assert (Hl : ∀ a b, linked t' a b ↔ linked t a b).
  { intros a b. by rewrite !linked_spec. }
  assert (Hwf' : tree_wf t').
  { split; [|done]. subst t'. unfold dict_wf. simpl. rewrite fmap_app.
    apply NoDup_app. split_and!; [done| |apply NoDup_singleton].
    intros k Hk ->%list_elem_of_singleton. done. }
  assert (Hnd' : no_dangling t').
  { intros ident [Hout Href]. apply (Hnd ident). split; [|exact Href].
    intros Hin. apply Hout, Hkeys. by left. }
  apply connected_not_true. intros Hc.
  destruct (nodes_cases t') as [Hn'|(s & nd & rest & Hn')].
  { assert (uuid ∈ (nodes t').*1) as Hu by (apply Hkeys; by right).
    rewrite Hn' in Hu. by apply elem_of_nil in Hu. }
  pose proof (proj1 (connected_closed t' s nd rest Hwf' Hnd' Hn') Hc) as Hall.
  assert (Hs : s ∈ (nodes t').*1) by (rewrite Hn'; left).
  destruct (nodes_cases t) as [?|(k0 & nd0 & rest0 & Hn)]; [done|].
  assert (Hk0 : k0 ∈ (nodes t).*1) by (rewrite Hn; left).
  apply Hkeys in Hs as [Hs| ->].
  - apply Hfresh. apply (reachable_in_nodes t s uuid); [done..|].
    apply (reachable_iff t' t); [done|]. apply Hall, Hkeys. by right.
  - apply Hfresh. apply (reachable_in_nodes t k0 uuid); [done..|].
    apply reachable_sym. apply (reachable_iff t' t); [done|].
    apply Hall, Hkeys. by left.
Qed.

Lemma connected_create_person_witness :
  connected (create_person
               (mkFamilyTree [(1%N, mkPerson "A" MALE 1950 None)] [] ∅)
               "B" FEMALE 1952 None 2%N).2 = Some false.
Proof.
  apply connected_create_person.
  - split; unfold dict_wf; simpl; apply (bool_decide_unpack _); by vm_compute.
  - intros ident [_ [(e & He & _)|(k & m & Hin & _)]]; simpl in *.
    + by apply elem_of_empty in He.
    + by apply elem_of_nil in Hin.
  - done.
  - intros k Hin. simpl in Hin. by apply list_elem_of_singleton in Hin.
  - apply (bool_decide_unpack _). by vm_compute.
Defined.

Lemma linked_edge t x y : mkEdge x y ∈ edges t → linked t x y ∧ linked t y x.
Proof.
  intros He. unfold linked, adjacency_list.
  rewrite !adj_get_node_links, !adj_get_edges. tauto.
Qed.

(** X8. [create_marriage] links each spouse to the new marriage node, so
    that each spouse is reached from the other, whether or not the spouse
    identifiers are stored people; every listed child is linked to the
    marriage node as well. *)
Theorem create_marriage_links t spouse1_id spouse2_id children' uuid :
  let t' := (create_marriage t spouse1_id spouse2_id children' uuid).2 in
  linked t' spouse1_id uuid ∧ linked t' spouse2_id uuid
  ∧ reachable t' spouse1_id spouse2_id
  ∧ (dict_wf (marriages t) →
     ∀ c, c ∈ children_or_empty children' →
          linked t' uuid c ∧ reachable t' spouse1_id c).
Proof.
  intros t'.
  assert (H1 : linked t' spouse1_id uuid ∧ linked t' uuid spouse1_id).
  { apply linked_edge. subst t'. simpl. set_solver. }
  assert (H2 : linked t' spouse2_id uuid ∧ linked t' uuid spouse2_id).
  { apply linked_edge. subst t'. simpl. set_solver. }
  split_and!; [tauto|tauto| |].
  - eapply rtc_l; [apply H1|]. apply rtc_once, H2.
  - intros Hwf c Hc.
    assert (Hlink : linked t' uuid c).
    { apply linked_spec.
      - subst t'. simpl. by apply dict_set_wf.
      - right; right; left. exists (mkMarriage (children_or_empty children')).
        split; [|done]. subst t'. simpl.
        apply dict_get_Some_elem. by rewrite dict_get_set, decide_True. }
    split; [done|]. eapply rtc_l; [apply H1|]. by apply rtc_once.
Qed.

Lemma create_marriage_links_witness :
  reachable (create_marriage two_couples 1%N 6%N (Some [7%N]) 8%N).2 1%N 7%N.
Proof.
  destruct (create_marriage_links two_couples 1%N 6%N (Some [7%N]) 8%N)
    as (_ & _ & _ & Hch).
  apply Hch; [apply two_couples_wf|]. simpl. left.
Defined.

(** ** More on the marriages *)

(** X9. [create_marriage] does not deduplicate: called twice for the same
    spouses, with two new identifiers, it stores two marriages, both of
    which the spouses belong to; the people are untouched. *)
Theorem create_marriage_twice t spouse1_id spouse2_id children1 children2
    uuid1 uuid2 :
  uuid1 ∉ (marriages t).*1 → uuid2 ∉ (marriages t).*1 → uuid1 ≠ uuid2 →
  let t1 := (create_marriage t spouse1_id spouse2_id children1 uuid1).2 in
  let t2 := (create_marriage t1 spouse1_id spouse2_id children2 uuid2).2 in
  marriages t2
    = marriages t ++ [(uuid1, mkMarriage (children_or_empty children1));
                      (uuid2, mkMarriage (children_or_empty children2))]
  ∧ common_marriage t2 spouse1_id spouse2_id uuid1
  ∧ common_marriage t2 spouse1_id spouse2_id uuid2
  ∧ people t2 = people t.
Proof.
  intros H1 H2 Hne t1 t2.
  assert (Hm : marriages t2
    = marriages t ++ [(uuid1, mkMarriage (children_or_empty children1));
                      (uuid2, mkMarriage (children_or_empty children2))]).
  { subst t2 t1. simpl. rewrite (dict_set_fresh (marriages t)) by done.
    rewrite dict_set_fresh; [by rewrite <-(assoc_L (++))|].
    rewrite fmap_app, elem_of_app. simpl. rewrite list_elem_of_singleton.
    intros [?|?]; congruence. }
  split_and!; [done| | |done].
  - split_and!.
    + rewrite Hm, fmap_app. set_solver.
    + subst t2 t1. simpl. set_solver.
    + subst t2 t1. simpl. set_solver.
  - split_and!.
    + rewrite Hm, fmap_app. set_solver.
    + subst t2 t1. simpl. set_solver.
    + subst t2 t1. simpl. set_solver.
Qed.

Lemma create_marriage_twice_witness :
  length
    (marriages
       (create_marriage
          (create_marriage two_couples 1%N 2%N None 8%N).2
          1%N 2%N None 9%N).2) = 4.
Proof.
  assert (H8 : 8%N ∉ (marriages two_couples).*1)
    by (apply (bool_decide_unpack _); by vm_compute).
  assert (H9 : 9%N ∉ (marriages two_couples).*1)
    by (apply (bool_decide_unpack _); by vm_compute).
  assert (Hne : 8%N ≠ 9%N) by done.
  pose proof (create_marriage_twice two_couples 1%N 2%N None None 8%N 9%N
                H8 H9 Hne) as Htwice.
  destruct Htwice as [Hm _]. by rewrite Hm.
Defined.

(** X10. After [create_marriage] for two spouses, [update_marriage] for
    the same spouses never answers [None]; when the tree had no marriage
    before, it replaces the children of the marriage just created and
    returns it. *)
Theorem create_then_update_marriage t spouse1_id spouse2_id children' uuid
    children'' :
  let t1 := (create_marriage t spouse1_id spouse2_id children' uuid).2 in
  is_Some (update_marriage t1 spouse1_id spouse2_id children'').1
  ∧ (marriages t = [] →
     update_marriage t1 spouse1_id spouse2_id children''
       = (Some (uuid, mkMarriage (children_or_empty children'')),
          mkFamilyTree (people t)
                       [(uuid, mkMarriage (children_or_empty children''))]
                       (edges t1))).
Proof.
  intros t1.
  assert (Hcommon : common_marriage t1 spouse1_id spouse2_id uuid).
  { subst t1. unfold common_marriage. simpl. split_and!; [|set_solver..].
    apply dict_get_is_Some. rewrite dict_get_set, decide_True by done.
    by eexists. }
  split.
  - destruct (marriages t1) as [|[mid m] rest] eqn:Hms.
    + destruct Hcommon as [Hin _]. rewrite Hms in Hin.
      by apply elem_of_nil in Hin.
    + erewrite update_marriage_first_entry; [by eexists|exact Hms|by eexists].
  - intros Hempty.
    erewrite update_marriage_first_entry; [done| |by eexists].
    subst t1. simpl. by rewrite Hempty.
Qed.

Lemma create_then_update_marriage_witness :
  update_marriage
    (create_marriage
       (mkFamilyTree (people two_couples) [] ∅) 1%N 2%N None 3%N).2
    1%N 2%N (Some [7%N])
  = (Some (3%N, mkMarriage [7%N]),
     mkFamilyTree (people two_couples) [(3%N, mkMarriage [7%N])]
                  {[mkEdge 1%N 3%N; mkEdge 2%N 3%N]}).
Proof.
  destruct (create_then_update_marriage
              (mkFamilyTree (people two_couples) [] ∅) 1%N 2%N None 3%N
              (Some [7%N])) as [_ Hupd].
  rewrite Hupd by done. by vm_compute.
Defined.

(** X11. On a tree with a single marriage, [update_marriage] does what its
    name says: if the two spouses belong to a marriage, that marriage gets
    the given children and is returned. *)
Theorem update_marriage_single t spouse1_id spouse2_id children' mid old m :
  marriages t = [(mid, old)] →
  common_marriage t spouse1_id spouse2_id m →
  m = mid
  ∧ update_marriage t spouse1_id spouse2_id children'
    = (Some (m, mkMarriage (children_or_empty children')),
       mkFamilyTree (people t)
                    [(m, mkMarriage (children_or_empty children'))]
                    (edges t)).
Proof.
  intros Hms Hcommon.
  assert (m = mid) as ->.
  { destruct Hcommon as [Hin _]. rewrite Hms in Hin. simpl in Hin.
    by apply list_elem_of_singleton in Hin. }
  split; [done|].
  erewrite update_marriage_first_entry; [done|exact Hms|by eexists].
Qed.

Lemma update_marriage_single_witness :
  update_marriage
    (mkFamilyTree (people two_couples) [(3%N, mkMarriage [])]
                  {[mkEdge 1%N 3%N; mkEdge 2%N 3%N]})
    1%N 2%N (Some [7%N])
  = (Some (3%N, mkMarriage [7%N]),
     mkFamilyTree (people two_couples) [(3%N, mkMarriage [7%N])]
                  {[mkEdge 1%N 3%N; mkEdge 2%N 3%N]}).
Proof.
  set (t := mkFamilyTree (people two_couples) [(3%N, mkMarriage [])]
                         {[mkEdge 1%N 3%N; mkEdge 2%N 3%N]}).
  assert (Hcommon : common_marriage t 1%N 2%N 3%N).
  { unfold common_marriage. simpl. set_solver. }
  destruct (update_marriage_single t 1%N 2%N (Some [7%N]) 3%N (mkMarriage [])
              3%N eq_refl Hcommon) as [_ Hupd].
  exact Hupd.
Defined.

Lemma update_marriage_None t spouse1_id spouse2_id children' :
  (∀ m, ¬ common_marriage t spouse1_id spouse2_id m) →
  update_marriage t spouse1_id spouse2_id children' = (None, t).
Proof.
  intros Hno. unfold update_marriage.
  destruct (marriages t) as [|[mid marriage] rest]; [done|].
  destruct (List.find _ _) as [m|] eqn:Hfind; [|done].
  destruct (proj1 (find_common_Some t spouse1_id spouse2_id)) as [m' Hm'];
    [by exists m|]. by destruct (Hno m').
Qed.

(** X12. The order of the two spouse arguments of [update_marriage] does
    not matter. *)
Theorem update_marriage_spouse_order t spouse1_id spouse2_id children' :
  update_marriage t spouse1_id spouse2_id children'
    = update_marriage t spouse2_id spouse1_id children'.
Proof.
  assert (Hsym : ∀ s1 s2,
    (∃ m, common_marriage t s1 s2 m) → ∃ m, common_marriage t s2 s1 m).
  { intros s1 s2 (m & ? & ? & ?). by exists m. }
  destruct (marriages t) as [|[mid marriage] rest] eqn:Hms.
  { unfold update_marriage. by rewrite Hms. }
  destruct (decide (is_Some (List.find
              (λ marriage_id,
                 bool_decide (marriage_id ∈ spouse_marriages t spouse2_id))
              (spouse_marriages t spouse1_id)))) as [Hsome|Hnone].
  - apply find_common_Some in Hsome.
    rewrite !(update_marriage_first_entry t _ _ _ mid marriage rest);
      auto.
  - assert (Hno : ∀ m, ¬ common_marriage t spouse1_id spouse2_id m).
    { intros m Hm. apply Hnone, find_common_Some. by exists m. }
    rewrite !update_marriage_None; [done| |done].
    intros m Hm. apply (Hno m). destruct Hm as (? & ? & ?). by split_and!.
Qed.

(** ** More on [delete_node] *)

Lemma delete_node_Ok t X t' :
  delete_node t X = Ok t' →
  (X ∈ (people t).*1 ∧ people t' = dict_del (people t) X
   ∧ marriages t' = without_child X <$> marriages t
   ∨ (X ∉ (people t).*1) ∧ X ∈ (marriages t).*1 ∧ people t' = people t
     ∧ marriages t' = without_child X <$> dict_del (marriages t) X)
  ∧ edges t'
    = filter (λ edge, X ≠ source edge ∧ X ≠ target edge) (edges t).
Proof.
  unfold delete_node.
  destruct (dict_in X (people t)) eqn:Hp.
  - intros [= <-]. apply dict_in_spec in Hp. split; [by left|done].
  - destruct (dict_in X (marriages t)) eqn:Hm; [|done].
    intros [= <-]. apply dict_in_false in Hp. apply dict_in_spec in Hm.
    split; [by right|done].
Qed.

Lemma without_child_keys X (d : list (N * Marriage)) :
  (without_child X <$> d).*1 = d.*1.
Proof. induction d as [|[] d IH]; simpl; [done|by f_equal]. Qed.

Lemma dict_get_without_child X (d : list (N * Marriage)) k :
  dict_get (without_child X <$> d) k
    = (λ m, mkMarriage (filter (λ child, child ≠ X) (children m)))
        <$> dict_get d k.
Proof.
  induction d as [|[k0 m0] d IH]; simpl; [done|]. by case_decide.
Qed.

(** X13. [delete_node] keeps the tree free of dangling references: when
    every identifier referenced by an edge or a children list was a stored
    node before, the same holds afterwards. *)
Theorem delete_node_no_dangling t X t' :
  no_dangling t → delete_node t X = Ok t' → no_dangling t'.
Proof.
  intros Hnd Hdel.
  apply delete_node_Ok in Hdel as [Hcases He].
  assert (Hstored : ∀ ident,
    (∃ e, e ∈ edges t ∧ (source e = ident ∨ target e = ident))
    ∨ (∃ k m, (k, m) ∈ marriages t ∧ ident ∈ children m) →
    ident ∈ (nodes t).*1).
  { intros ident Hr. destruct (decide (ident ∈ (nodes t).*1)); [done|].
    by destruct (Hnd ident). }
  assert (Hkeys : ∀ k, k ≠ X → k ∈ (nodes t).*1 → k ∈ (nodes t').*1).
  { intros k Hne. rewrite !nodes_keys.
    destruct Hcases as [(_ & -> & ->)|(_ & _ & -> & ->)];
      rewrite without_child_keys, ?dict_del_keys; tauto. }
  assert (Hsub : ∀ k m',
    (k, m') ∈ marriages t' →
    ∃ m, (k, m) ∈ marriages t
         ∧ children m' = filter (λ child, child ≠ X) (children m)).
  { intros k m' Hin.
    destruct Hcases as [(_ & _ & Hm)|(_ & _ & _ & Hm)]; rewrite Hm in Hin;
      apply list_elem_of_fmap in Hin as ([k0 m0] & [= -> ->] & Hin0).
    - by exists m0.
    - exists m0. split; [|done].
      unfold dict_del in Hin0. by apply list_elem_of_filter in Hin0 as [_ ?]. }
  intros ident [Hout Href]. apply Hout.
  destruct Href as [(e & Hin & Hst)|(k & m' & Hin & Hc)].
  - rewrite He in Hin. apply elem_of_filter in Hin as [[Hs Ht] Hin].
    apply Hkeys.
    + destruct Hst as [<-|<-]; congruence.
    + apply Hstored. left. by exists e.
  - apply Hsub in Hin as (m & Hin & Hch). rewrite Hch in Hc.
    apply list_elem_of_filter in Hc as [Hne Hc].
    apply Hkeys; [done|]. apply Hstored. right. by exists k, m.
Qed.

Lemma delete_node_no_dangling_witness :
  ∃ t', delete_node two_couples 5%N = Ok t' ∧ no_dangling t'.
Proof.
  eexists. split; [by vm_compute|].
  eapply (delete_node_no_dangling two_couples 5%N).
  - exact two_couples_no_dangling.
  - by vm_compute.
Defined.

(** X14. [delete_node] raises "Node not found" exactly when the
    identifier is a key of neither dictionary, and raises nothing else.
    When it succeeds, every other person is as before, every other
    marriage keeps its children but [X], and no edge is added. *)
Theorem delete_node_frame t X :
  (delete_node t X = Raise (ValueError "Node not found")
   ↔ (X ∉ (people t).*1) ∧ (X ∉ (marriages t).*1))
  ∧ (∀ e, delete_node t X = Raise e → e = ValueError "Node not found")
  ∧ (∀ t', delete_node t X = Ok t' →
       (∀ k, k ≠ X → dict_get (people t') k = dict_get (people t) k)
       ∧ (∀ k, k ≠ X →
               dict_get (marriages t') k
               = (λ m, mkMarriage (filter (λ child, child ≠ X) (children m)))
                   <$> dict_get (marriages t) k)
       ∧ edges t' ⊆ edges t).
Proof.
  split_and!.
  - unfold delete_node. rewrite <-!dict_in_false.
    destruct (dict_in X (people t)), (dict_in X (marriages t)); naive_solver.
  - unfold delete_node. intros e.
    destruct (dict_in X (people t)), (dict_in X (marriages t)); naive_solver.
  - intros t' Hdel. apply delete_node_Ok in Hdel as [Hcases He].
    split_and!.
    + intros k Hne.
      destruct Hcases as [(_ & -> & _)|(_ & _ & -> & _)]; [|done].
      by rewrite dict_del_get, decide_False.
    + intros k Hne.
      destruct Hcases as [(_ & _ & ->)|(_ & _ & _ & ->)];
        rewrite dict_get_without_child; [done|].
      by rewrite dict_del_get, decide_False.
    + rewrite He. intros e ?%elem_of_filter. tauto.
Qed.

Lemma delete_node_frame_witness :
  delete_node two_couples 8%N = Raise (ValueError "Node not found")
  ∧ ∃ t', delete_node two_couples 3%N = Ok t'
          ∧ dict_get (marriages t') 4%N = Some (mkMarriage []).
Proof.
  destruct (delete_node_frame two_couples 8%N) as [[_ Hraise] _].
  split.
  - apply Hraise. split; apply (bool_decide_unpack _); by vm_compute.
  - destruct (delete_node_frame two_couples 3%N) as (_ & _ & Hframe).
    eexists. split; [by vm_compute|].
    edestruct Hframe as (_ & Hm & _); [by vm_compute|].
    by rewrite Hm.
Defined.

(** C3. For a tree containing a node with identifier [X], which the
    identifier scheme makes a key of one dictionary only, its owning
    collection, [delete_node] succeeds and removes [X] from that
    collection: afterwards [X] is a key of neither dictionary, and every
    other person is as before.  It keeps exactly the edges whose source
    and target both differ from [X], and every remaining marriage keeps
    its children but [X]; so no edge references [X] and no children list
    contains [X].  A second [delete_node] of [X] raises "Node not
    found". *)
Theorem delete_node_owned t X :
  X ∈ (people t).*1 ∨ X ∈ (marriages t).*1 →
  ¬ (X ∈ (people t).*1 ∧ X ∈ (marriages t).*1) →
  ∃ t', delete_node t X = Ok t'
    ∧ dict_get (people t') X = None
    ∧ dict_get (marriages t') X = None
    ∧ (∀ k, k ≠ X → dict_get (people t') k = dict_get (people t) k)
    ∧ (∀ k, k ≠ X →
            dict_get (marriages t') k
            = (λ m, mkMarriage (filter (λ child, child ≠ X) (children m)))
                <$> dict_get (marriages t) k)
    ∧ (∀ e, e ∈ edges t' ↔ e ∈ edges t ∧ source e ≠ X ∧ target e ≠ X)
    ∧ (∀ e, e ∈ edges t' → source e ≠ X ∧ target e ≠ X)
    ∧ (∀ k m, (k, m) ∈ marriages t' → X ∉ children m)
    ∧ delete_node t' X = Raise (ValueError "Node not found").
Proof.
  intros Hin Hnot.
  destruct (delete_node_cascade t X Hin)
    as (t' & Hdel & _ & He & Hno & Hch & Hagain).
  exists t'. split; [exact Hdel|].
  apply delete_node_Ok in Hdel as [Hcases _].
  split_and!; try done.
  - destruct Hcases as [(_ & -> & _)|(Hp & _ & -> & _)].
    + by rewrite dict_del_get, decide_True.
    + by apply dict_get_None.
  - destruct Hcases as [(Hp & _ & ->)|(_ & _ & _ & ->)];
      rewrite dict_get_without_child.
    + assert (dict_get (marriages t) X = None) as ->; [|done].
      apply dict_get_None. tauto.
    + by rewrite dict_del_get, decide_True.
  - intros k Hne.
    destruct Hcases as [(_ & -> & _)|(_ & _ & -> & _)]; [|done].
    by rewrite dict_del_get, decide_False.
  - intros k Hne.
    destruct Hcases as [(_ & _ & ->)|(_ & _ & _ & ->)];
      rewrite dict_get_without_child; [done|].
    by rewrite dict_del_get, decide_False.
  - by apply Hagain.
Qed.

Lemma delete_node_owned_witness :
  ∃ t', delete_node two_couples 3%N = Ok t'
    ∧ dict_get (marriages t') 3%N = None
    ∧ dict_get (marriages t') 4%N = Some (mkMarriage [])
    ∧ (∀ e, e ∈ edges t' → source e ≠ 3%N ∧ target e ≠ 3%N)
    ∧ delete_node t' 3%N = Raise (ValueError "Node not found").
Proof.
  destruct (delete_node_owned two_couples 3%N)
    as (t' & Hdel & _ & Hgone & _ & Hm & _ & He & _ & Hagain).
  - right. unfold two_couples; simpl. set_solver.
  - intros [Hp _]. unfold two_couples in Hp; simpl in Hp. set_solver.
  - exists t'. split_and!; [exact Hdel|exact Hgone| |exact He|exact Hagain].
    by rewrite Hm.
Defined.

(** ** More on [update_person] *)

Lemma updated_idemp gender' birth_year' death_year' person :
  updated gender' birth_year' death_year'
    (updated gender' birth_year' death_year' person)
  = updated gender' birth_year' death_year' person.
Proof.
  unfold updated; simpl. f_equal.
  - by destruct gender'.
  - by destruct (int_truthy birth_year').
  - by destruct (int_truthy death_year').
Qed.

Lemma fmap_replace_absent {V} (P : N * V → Prop) `{∀ x, Decision (P x)}
    (d : list (N * V)) k v :
  k ∉ d.*1 →
  (λ kv : N * V, if decide (kv.1 = k) then (k, v) else kv) <$> filter P d
  = filter P d.
Proof.
  induction d as [|[k0 v0] d IH]; [done|]. simpl.
  rewrite not_elem_of_cons. intros [Hne Hk]. rewrite filter_cons.
  case_decide; [|by apply IH]. simpl.
  rewrite decide_False by done. f_equal. by apply IH.
Qed.

(** Replacing the value of a stored key by one that passes the same test
    replaces it in the filtered list as well. *)
Lemma filter_dict_set {V} (P : N * V → Prop) `{∀ x, Decision (P x)}
    (d : list (N * V)) k old v :
  dict_wf d → (k, old) ∈ d → (P (k, old) ↔ P (k, v)) →
  filter P (dict_set d k v)
  = (λ kv : N * V, if decide (kv.1 = k) then (k, v) else kv) <$> filter P d.
Proof.
  unfold dict_wf. intros Hwf Hin HP.
  induction d as [|[k0 v0] d IH]; [by apply elem_of_nil in Hin|].
  simpl in *. apply NoDup_cons in Hwf as [Hk0 Hwf].
  destruct (decide (k0 = k)) as [->|Hne].
  - assert (v0 = old) as ->.
    { apply elem_of_cons in Hin as [[= ->]|Hin]; [done|].
      exfalso. apply Hk0, list_elem_of_fmap. by exists (k, old). }
    rewrite !filter_cons.
    destruct (decide (P (k, v))), (decide (P (k, old))); try tauto; simpl.
    + rewrite decide_True by done. f_equal.
      symmetry. by apply fmap_replace_absent.
    + symmetry. by apply fmap_replace_absent.
  - apply elem_of_cons in Hin as [[= -> ->]|Hin]; [done|].
    rewrite !filter_cons. case_decide; simpl.
    + rewrite decide_False by done. f_equal. by apply IH.
    + by apply IH.
Qed.

(** X15. With a person identifier, [update_person] ignores the name
    argument altogether, and it fails exactly when the identifier is not
    a key of [people], with a [KeyError] rather than "Person not found". *)
Theorem update_person_by_id t name' gender' birth_year' death_year' person_id :
  (∀ name'',
     update_person t name'' gender' birth_year' death_year' (Some person_id)
     = update_person t name' gender' birth_year' death_year' (Some person_id))
  ∧ (update_person t name' gender' birth_year' death_year' (Some person_id)
     = Raise (KeyError person_id) ↔ person_id ∉ (people t).*1)
  ∧ (∀ e,
       update_person t name' gender' birth_year' death_year' (Some person_id)
       = Raise e → e = KeyError person_id).
Proof.
  split_and!.
  - done.
  - rewrite <-dict_get_None. unfold update_person.
    destruct (dict_get (people t) person_id); naive_solver.
  - intros e. unfold update_person.
    destruct (dict_get (people t) person_id); naive_solver.
Qed.

Lemma update_person_by_id_witness :
  update_person two_couples "A" None None None (Some 8%N)
  = Raise (KeyError 8%N).
Proof.
  destruct (update_person_by_id two_couples "A" None None None 8%N)
    as (_ & [_ Hraise] & _).
  apply Hraise. apply (bool_decide_unpack _). by vm_compute.
Defined.

(** X16. A successful [update_person] changes one person and nothing
    else: the keys of [people] and their order, the name of the person,
    every other person, the marriages and the edges are as before. *)
Theorem update_person_frame t name' gender' birth_year' death_year' person_id
    k p t' :
  update_person t name' gender' birth_year' death_year' person_id
    = Ok ((k, p), t') →
  (people t').*1 = (people t).*1
  ∧ dict_get (people t') k = Some p
  ∧ (∃ old, (k, old) ∈ people t ∧ name p = name old)
  ∧ (∀ k', k' ≠ k → dict_get (people t') k' = dict_get (people t) k')
  ∧ marriages t' = marriages t ∧ edges t' = edges t.
Proof.
  intros Hup.
  assert (Hm : marriages t' = marriages t ∧ edges t' = edges t).
  { unfold update_person in Hup. destruct person_id.
    - destruct (dict_get _ _); [|done]. by injection Hup as <- <- <-.
    - destruct (filter _ _) as [|[] ?]; [done|]. case_decide; [done|].
      by injection Hup as <- <- <-. }
  apply update_person_success_falsy in Hup as (old & Hin & -> & Hp & _).
  rewrite Hp. split_and!; try tauto.
  - apply dict_set_keys_in. apply list_elem_of_fmap. by exists (k, old).
  - by rewrite dict_get_set, decide_True.
  - by exists old.
  - intros k' Hne. by rewrite dict_get_set, decide_False.
Qed.

Lemma update_person_frame_witness :
  ∃ p t',
    update_person two_couples "D" (Some OTHER) (Some 1961%Z) None None
      = Ok ((5%N, p), t')
    ∧ (people t').*1 = (people two_couples).*1
    ∧ dict_get (people t') 6%N = dict_get (people two_couples) 6%N.
Proof.
  eexists _, _. split; [by vm_compute|].
  edestruct (update_person_frame two_couples "D" (Some OTHER) (Some 1961%Z)
               None None) as (Hkeys & _ & _ & Hothers & _); [by vm_compute|].
  split; [exact Hkeys|]. by apply Hothers.
Defined.

(** X17. [update_person] is idempotent: after a successful call, the same
    call succeeds again, returns the same person and leaves the tree as
    the first call left it. *)
Theorem update_person_idempotent t name' gender' birth_year' death_year'
    person_id r t' :
  dict_wf (people t) →
  update_person t name' gender' birth_year' death_year' person_id
    = Ok (r, t') →
  update_person t' name' gender' birth_year' death_year' person_id
    = Ok (r, t').
Proof.
  intros Hwf Hup. unfold update_person in *. destruct person_id as [pid|].
  - destruct (dict_get (people t) pid) as [old|] eqn:Hold; [|done].
    injection Hup as <- <-. simpl.
    rewrite dict_get_set, decide_True by done.
    by rewrite updated_idemp, dict_set_set.
  - destruct (filter _ (people t)) as [|[pid old] others] eqn:Hf; [done|].
    case_decide as Hlen; [done|]. injection Hup as <- <-. simpl.
    assert (others = []) as ->.
    { destruct others; [done|]. simpl in Hlen. lia. }
    assert (Hin : (pid, old) ∈ people t ∧ name old = name').
    { assert ((pid, old) ∈ filter (λ kv, name kv.2 = name') (people t)) as Hm
        by (rewrite Hf; left).
      apply list_elem_of_filter in Hm. simpl in Hm. tauto. }
    destruct Hin as [Hin Hname].
    rewrite (filter_dict_set _ (people t) pid old) by done.
    rewrite Hf. simpl. rewrite decide_True by done.
    by rewrite updated_idemp, dict_set_set.
Qed.

Lemma update_person_idempotent_witness :
  ∃ r t',
    update_person two_couples "D" (Some OTHER) (Some 1961%Z) None None
      = Ok (r, t')
    ∧ update_person t' "D" (Some OTHER) (Some 1961%Z) None None = Ok (r, t').
Proof.
  eexists _, _. split; [by vm_compute|].
  apply (update_person_idempotent two_couples); [|by vm_compute].
  unfold dict_wf; simpl. apply (bool_decide_unpack _). by vm_compute.
Defined.

(** ** More on [sort] *)

Lemma string_compare_lt_trans s1 : ∀ s2 s3,
  String.compare s1 s2 = Lt → String.compare s2 s3 = Lt →
  String.compare s1 s3 = Lt.
Proof.
  induction s1 as [|a s1 IH]; intros [|b s2] [|c s3]; simpl; try done.
  destruct (Ascii.compare a b) eqn:Hab, (Ascii.compare b c) eqn:Hbc;
    try done.
  - apply Ascii.compare_eq_iff in Hab as ->.
    apply Ascii.compare_eq_iff in Hbc as ->.
    assert (Ascii.compare c c = Eq) as ->
      by (unfold Ascii.compare; apply N.compare_refl).
    apply IH.
  - apply Ascii.compare_eq_iff in Hab as ->. by rewrite Hbc.
  - apply Ascii.compare_eq_iff in Hbc as ->. by rewrite Hab.
  - assert (Ascii.compare a c = Lt) as ->; [|done].
    unfold Ascii.compare in *. rewrite N.compare_lt_iff in *. lia.
Qed.

Lemma string_not_ltb_trans s1 s2 s3 :
  String.ltb s2 s1 = false → String.ltb s3 s2 = false →
  String.ltb s3 s1 = false.
Proof.
  unfold String.ltb. intros H21 H32.
  destruct (String.compare s3 s1) eqn:H31; try done. exfalso.
  destruct (String.compare s2 s1) eqn:H21'; try done.
  - apply String.compare_eq_iff in H21' as ->. by rewrite H31 in H32.
  - rewrite String.compare_antisym in H21'.
    destruct (String.compare s1 s2) eqn:H12; try done.
    by rewrite (string_compare_lt_trans s3 s1 s2 H31 H12) in H32.
Qed.

Lemma composite_lt_false (a b : nat * Z * string) :
  composite_lt b a = false ↔
    a.1.1 ≤ b.1.1
    ∧ (a.1.1 = b.1.1 →
       (a.1.2 ≤ b.1.2)%Z ∧ (a.1.2 = b.1.2 → String.ltb b.2 a.2 = false)).
Proof.
  destruct a as [[r1 y1] n1], b as [[r2 y2] n2]; simpl.
  rewrite orb_false_iff, andb_false_iff, orb_false_iff, andb_false_iff.
  rewrite Nat.ltb_ge, Nat.eqb_neq, Z.ltb_ge, Z.eqb_neq.
  split; intros [Hr H]; (split; [done|]).
  - intros Heq. destruct H as [?|[Hy H]]; [lia|]. split; [done|].
    intros Heqy. destruct H as [?|?]; [lia|done].
  - destruct (decide (r2 = r1)) as [Heq|?]; [right|by left].
    destruct H as [Hy H]; [done|]. split; [done|].
    destruct (decide (y2 = y1)) as [Heqy|?]; [right|by left].
    by apply H.
Qed.

Lemma in_order_trans a b c : in_order a b → in_order b c → in_order a c.
Proof.
  unfold in_order. rewrite !composite_lt_false.
  intros (Hr1 & H1) (Hr2 & H2). split; [lia|]. intros Hr.
  destruct H1 as [Hy1 Hn1]; [lia|]. destruct H2 as [Hy2 Hn2]; [lia|].
  split; [lia|]. intros Hy.
  eapply string_not_ltb_trans; [apply Hn1|apply Hn2]; lia.
Qed.

(** X18. After [sort] the people are in order on the composite key
    (gender rank, birth year, name) for all pairs of positions, not only
    for neighbours: an earlier person never strictly exceeds a later one.
    In particular the gender rank never decreases along the list: men
    first, then women, then the others. *)
Theorem sort_all_pairs t :
  dict_wf (people t) →
  StronglySorted in_order (people (sort t))
  ∧ ∀ l1 a l2 b l3,
      people (sort t) = l1 ++ a :: l2 ++ b :: l3 →
      gender_rank (gender a.2) ≤ gender_rank (gender b.2).
Proof.
  intros Hwf.
  assert (Hs : StronglySorted in_order (people (sort t))).
  { apply Sorted_StronglySorted; [exact in_order_trans|].
    rewrite sort_people by done. apply sorted_people_in_order. }
  split; [done|]. intros l1 a l2 b l3 Hl. rewrite Hl in Hs.
  apply StronglySorted_app in Hs as (_ & _ & Hs).
  apply StronglySorted_cons in Hs as [Hall _].
  rewrite Forall_forall in Hall.
  assert (Hab : in_order a b) by (apply Hall; set_solver).
  unfold in_order in Hab. apply composite_lt_false in Hab as [Hr _].
  exact Hr.
Qed.

Lemma sort_all_pairs_witness :
  StronglySorted in_order (people (sort two_couples)).
Proof. apply sort_all_pairs, two_couples_wf. Defined.

(** X19. [sort] only reorders: every identifier maps to the same person
    as before, and the number of people is the same. *)
Theorem sort_keeps_lookup t :
  dict_wf (people t) →
  (∀ k, dict_get (people (sort t)) k = dict_get (people t) k)
  ∧ length (people (sort t)) = length (people t)
  ∧ dict_wf (people (sort t)).
Proof.
  intros Hwf. rewrite sort_people by done.
  pose proof (sorted_perm key_lt sort_key (people t)) as Hperm.
  split_and!.
  - intros k. symmetry. by apply dict_get_perm.
  - by rewrite Hperm.
  - by apply sorted_people_wf.
Qed.

Lemma sort_keeps_lookup_witness :
  dict_get (people (sort two_couples)) 6%N
  = Some (mkPerson "E" FEMALE 1961 None).
Proof.
  destruct (sort_keeps_lookup two_couples) as [Hget _];
    [apply two_couples_wf|].
  by rewrite Hget.
Defined.

(** X20. [sort] is stable: the people who share the key tuple of the code
    (same gender, birth year and name) keep the order they had. *)
Theorem sort_stable t key :
  dict_wf (people t) →
  filter (λ kv, sort_key kv = key) (people (sort t))
  = filter (λ kv, sort_key kv = key) (people t).
Proof.
  intros Hwf. rewrite sort_people by done.
  apply sorted_stable. exact key_lt_asym.
Qed.

Lemma sort_stable_witness :
  filter (λ kv, sort_key kv = (false, true, 1950%Z, "A"))
         (people
            (sort (mkFamilyTree
                     [(2%N, mkPerson "A" MALE 1950 (Some 2000%Z));
                      (9%N, mkPerson "Z" FEMALE 1900 None);
                      (1%N, mkPerson "A" MALE 1950 None)] [] ∅)))
  = [(2%N, mkPerson "A" MALE 1950 (Some 2000%Z));
     (1%N, mkPerson "A" MALE 1950 None)].
Proof.
  rewrite sort_stable; [by vm_compute|].
  unfold dict_wf; simpl. apply (bool_decide_unpack _). by vm_compute.
Defined.


(** ** More on [merge] *)

Lemma dict_update_same {V} (d o : list (N * V)) :
  (∀ k v, (k, v) ∈ o → dict_get d k = Some v) → dict_update d o = d.
Proof.
  unfold dict_update. induction o as [|[k v] o IH]; intros Ho; simpl; [done|].
  rewrite dict_set_same by (apply Ho; left). apply IH.
  intros k' v' Hin. apply Ho. by right.
Qed.

Lemma dict_update_assoc {V} (a b c : list (N * V)) :
  dict_wf a → dict_wf b → dict_wf c →
  dict_update (dict_update a b) c = dict_update a (dict_update b c).
Proof.
  intros Ha Hb Hc.
  assert (Hbc : dict_wf (dict_update b c)) by by apply dict_update_wf.
  apply dict_ext.
  - by do 2 apply dict_update_wf.
  - rewrite !dict_update_keys_order by done.
    rewrite filter_app, list_filter_filter, <-(assoc_L (++)).
    do 2 f_equal. apply list_filter_iff. intros k.
    rewrite elem_of_app, list_elem_of_filter. tauto.
  - intros k. rewrite !dict_get_update by done.
    by destruct (dict_get c k), (dict_get b k).
Qed.

(** X21. Merging a tree into itself changes nothing, and the empty tree
    is neutral for [merge] on both sides. *)
Theorem merge_self_empty t :
  tree_wf t →
  merge t t = t ∧ merge t empty_tree = t ∧ merge empty_tree t = t.
Proof.
  intros [Hp Hm]. destruct t as [ps ms es]. unfold merge; simpl in *.
  split_and!.
  - rewrite !dict_update_same by (intros k v; by apply elem_dict_get).
    f_equal. set_solver.
  - f_equal. set_solver.
  - rewrite !dict_update_append by (by rewrite app_nil_l).
    f_equal. set_solver.
Qed.

Lemma merge_self_empty_witness :
  merge two_couples two_couples = two_couples.
Proof. apply merge_self_empty, two_couples_wf. Defined.

(** X22. [merge] is associative: merging [B] and then [C] into [A] gives
    the tree that merging into [A] the result of merging [C] into [B]
    gives, with the same order of entries. *)
Theorem merge_assoc (A B C : FamilyTree) :
  tree_wf A → tree_wf B → tree_wf C →
  merge (merge A B) C = merge A (merge B C).
Proof.
  intros [HpA HmA] [HpB HmB] [HpC HmC]. unfold merge; simpl.
  rewrite !dict_update_assoc by done. f_equal. set_solver.
Qed.

Lemma merge_assoc_witness :
  merge (merge two_couples shared_key) stray_edge
  = merge two_couples (merge shared_key stray_edge).
Proof.
  apply merge_assoc; [apply two_couples_wf|..];
    split; unfold dict_wf; simpl; apply (bool_decide_unpack _); by vm_compute.
Defined.

(** X23. [merge] keeps trees free of dangling references: if neither tree
    references an identifier it does not store, neither does the merged
    tree. *)
Theorem merge_no_dangling (G H : FamilyTree) :
  no_dangling G → no_dangling H → no_dangling (merge G H).
Proof.
  intros HG HH.
  assert (Hstored : ∀ t ident, no_dangling t →
    (∃ e, e ∈ edges t ∧ (source e = ident ∨ target e = ident))
    ∨ (∃ k m, (k, m) ∈ marriages t ∧ ident ∈ children m) →
    ident ∈ (nodes t).*1).
  { intros t ident Hnd Hr. destruct (decide (ident ∈ (nodes t).*1)); [done|].
    by destruct (Hnd ident). }
  assert (Hkeys : ∀ k, k ∈ (nodes G).*1 ∨ k ∈ (nodes H).*1 →
                       k ∈ (nodes (merge G H)).*1).
  { intros k. rewrite !nodes_keys. unfold merge; simpl.
    rewrite !dict_update_keys. tauto. }
  intros ident [Hout Href]. apply Hout, Hkeys.
  destruct Href as [(e & Hin & Hst)|(k & m & Hin & Hc)].
  - unfold merge in Hin; simpl in Hin.
    apply elem_of_union in Hin as [Hin|Hin].
    + left. apply Hstored; [done|]. left. by exists e.
    + right. apply Hstored; [done|]. left. by exists e.
  - unfold merge in Hin; simpl in Hin.
    apply elem_of_dict_update in Hin as [Hin|Hin].
    + left. apply Hstored; [done|]. right. by exists k, m.
    + right. apply Hstored; [done|]. right. by exists k, m.
Qed.

Lemma merge_no_dangling_witness : no_dangling (merge two_couples two_couples).
Proof.
  apply merge_no_dangling; exact two_couples_no_dangling.
Defined.

(** ** The import loop *)

Lemma merge_people_wf t o : dict_wf (people t) → dict_wf (people (merge t o)).
Proof. intros Hwf. unfold merge; simpl. by apply dict_update_wf. Qed.

(** X24. The import loop of the application, which sorts after every
    merge, stores what merging all the uploaded trees in turn stores: the
    same person under every identifier, the same marriages and the same
    edges; and after at least one upload the people are in display
    order. *)
Theorem import_trees_merges t trees :
  dict_wf (people t) →
  Forall tree_wf trees →
  (∀ k, dict_get (people (import_trees t trees)) k
        = dict_get (people (foldl merge t trees)) k)
  ∧ marriages (import_trees t trees) = marriages (foldl merge t trees)
  ∧ edges (import_trees t trees) = edges (foldl merge t trees)
  ∧ (trees ≠ [] → Sorted in_order (people (import_trees t trees))).
Proof.
  intros Hwf Hall. unfold import_trees.
  assert (Hgen : ∀ t1 t2,
    dict_wf (people t1) → dict_wf (people t2) →
    (∀ k, dict_get (people t1) k = dict_get (people t2) k) →
    marriages t1 = marriages t2 → edges t1 = edges t2 →
    let r1 := foldl (λ acc tree, sort (merge acc tree)) t1 trees in
    let r2 := foldl merge t2 trees in
    dict_wf (people r1)
    ∧ (∀ k, dict_get (people r1) k = dict_get (people r2) k)
    ∧ marriages r1 = marriages r2 ∧ edges r1 = edges r2).
  { induction Hall as [|o trees [Hpo Hmo] _ IH]; intros t1 t2 H1 H2 Hg Hm He;
      simpl; [done|].
    apply IH.
    - rewrite sort_people by by apply merge_people_wf.
      by apply sorted_people_wf, merge_people_wf.
    - by apply merge_people_wf.
    - intros k. rewrite sort_people by by apply merge_people_wf.
      rewrite <-(dict_get_perm (people (merge t1 o)))
        by (by apply merge_people_wf || by rewrite sorted_perm).
      unfold merge; simpl. by rewrite !dict_get_update, Hg.
    - unfold merge; simpl. by rewrite Hm.
    - unfold merge; simpl. by rewrite He. }
  destruct (Hgen t t Hwf Hwf) as (_ & Hg & Hm & He); try done.
  split_and!; try done.
  intros Hne. destruct (exists_last Hne) as (trees' & o & ->).
  rewrite foldl_snoc. apply Forall_app in Hall as [Hall' _].
  rewrite sort_people; [apply sorted_people_in_order|].
  apply merge_people_wf.
  clear -Hwf Hall'. revert t Hwf.
  induction Hall' as [|o' trees' _ _ IH]; intros t Hwf; simpl; [done|].
  apply IH. rewrite sort_people by by apply merge_people_wf.
  by apply sorted_people_wf, merge_people_wf.
Qed.

Lemma import_trees_merges_witness :
  dict_get (people (import_trees two_couples [shared_key; stray_edge])) 2%N
  = dict_get (people (merge (merge two_couples shared_key) stray_edge)) 2%N.
Proof.
  destruct (import_trees_merges two_couples [shared_key; stray_edge])
    as [Hget _].
  - apply two_couples_wf.
  - repeat constructor; unfold dict_wf; simpl; apply (bool_decide_unpack _);
      by vm_compute.
  - apply Hget.
Defined.
